(** * Session lifecycle controller of the voice-call front end

    A shallow embedding of [frontend/src/App.tsx]: the React component that
    provisions a room, joins it through a Daily call object, reconciles the
    transport's callbacks into [connectionState] / [agentState] /
    [transcript], binds the remote audio track to an audio element and
    toggles the microphone.

    The component runs on a single-threaded event loop.  Every callback and
    every piece of an [async] function between two [await]s is one turn; a
    turn is a command of the monad [M] below, and the event loop is the
    function [step].  The loop follows the component while it is mounted;
    [perform] adds the turn that ends it, the unmount cleanup. *)

From Stdlib Require Import ZArith String List Bool Lia.
From stdpp Require Import base option list strings.
Import ListNotations.
Local Open Scope string_scope.
Local Open Scope list_scope.

(** ** JavaScript values carried by application messages *)

(** [event.data] of an ['app-message'] is whatever JSON the peer sent.  The
    TypeScript annotation on it is erased at run time, so the handler is
    modelled over untyped values.  Numbers only matter through their zero
    test here; object keys are unique and looked up by name. *)
#[local] Unset Elimination Schemes.
Inductive jsval : Type :=
| JUndefined
| JNull
| JBool (b : bool)
| JNum (n : Z)
| JStr (s : string)
| JArr (items : list jsval)
| JObj (fields : list (string * jsval)).
#[local] Set Elimination Schemes.

(** ToBoolean. *)
Definition truthy (v : jsval) : bool :=
  match v with
  | JUndefined | JNull => false
  | JBool b => b
  | JNum n => negb (n =? 0)%Z
  | JStr s => negb (String.eqb s "")
  | JArr _ | JObj _ => true
  end.

(** [v === 'lit'] for a string literal. *)
Definition strict_eq_str (v : jsval) (lit : string) : bool :=
  match v with
  | JStr s => String.eqb s lit
  | _ => false
  end.

(** [a || b]. *)
Definition js_or (a b : jsval) : jsval := if truthy a then a else b.

Fixpoint assoc (k : string) (fields : list (string * jsval)) : option jsval :=
  match fields with
  | [] => None
  | (k', v) :: rest => if String.eqb k k' then Some v else assoc k rest
  end.

Inductive JsError : Type :=
| TypeError (msg : string)
| Error (msg : string).

(** ** Data model *)

Module ConnectionState.
Inductive t : Type := idle | connecting | connected | error.
End ConnectionState.

Module AgentState.
Inductive t : Type := listening | thinking | speaking | idle.
End AgentState.

#[global] Instance ConnectionState_eq_dec : EqDecision ConnectionState.t.
Proof. solve_decision. Defined.

#[global] Instance AgentState_eq_dec : EqDecision AgentState.t.
Proof. solve_decision. Defined.

Record MediaStreamTrack : Type := {
  kind : string;
  trackId : nat
}.

Definition MediaStream : Type := list MediaStreamTrack.

Record DailyParticipant : Type := {
  local : bool
}.

(** The argument of the ['track-started'] callback. *)
Record TrackEvent : Type := {
  track : option MediaStreamTrack;
  participant : option DailyParticipant
}.

(** An [HTMLAudioElement]: the audio sink. *)
Record HTMLAudioElement : Type := {
  srcObject : option MediaStream;
  autoplay : bool;
  paused : bool
}.

(** Meeting state of a Daily call object, as the transport keeps it. *)
Inductive MeetingState : Type :=
| ms_new | ms_joining | ms_joined | ms_left | ms_error.

#[global] Instance MeetingState_eq_dec : EqDecision MeetingState.
Proof. solve_decision. Defined.

(** A [DailyCall] object: the session. *)
Record DailyCall : Type := {
  localAudioEnabled : bool;
  meetingState : MeetingState;
  destroyed : bool
}.

(** Calls made to the outside world, in program order. *)
Inductive Op : Type :=
| OpFetch (character : string)
| OpCreateCallObject (c : nat)
| OpJoin (c : nat) (url token : string)
| OpLeave (c : nat)
| OpDestroy (c : nat)
| OpSetLocalAudio (c : nat) (enabled : bool)
| OpNewAudio (a : nat)
| OpPause (a : nat)
| OpSetSrcObject (a : nat) (src : option MediaStream)
| OpSetAutoplay (a : nat) (b : bool)
| OpPlay (a : nat).

(** The component's state: the six [useState] cells, the two [useRef]
    cells, the objects the refs may point to (call objects and audio
    elements live in stores indexed by allocation order), what is
    suspended (the number of [connect] invocations at [await fetch], and
    for each [disconnect] at [await leave()] or at [await destroy()] the
    call object whose promise it awaits), and the log of outside calls. *)
Record State : Type := mkState {
  connectionState : ConnectionState.t;
  agentState : AgentState.t;
  isMuted : bool;
  transcript : jsval;
  transcriptRole : jsval;
  selectedCharacter : string;
  callRef : option nat;
  audioRef : option nat;
  calls : list DailyCall;
  audios : list HTMLAudioElement;
  pendingFetch : nat;
  leaving : list nat;
  destroying : list nat;
  oplog : list Op
}.

Definition init : State :=
  {| connectionState := ConnectionState.idle;
     agentState := AgentState.idle;
     isMuted := false;
     transcript := JStr "";
     transcriptRole := JStr "";
     selectedCharacter := "bugs";
     callRef := None;
     audioRef := None;
     calls := [];
     audios := [];
     pendingFetch := 0;
     leaving := [];
     destroying := [];
     oplog := [] |}.

(** Field updates. *)
Definition with_connectionState (v : ConnectionState.t) (s : State) : State :=
  mkState v (agentState s) (isMuted s) (transcript s) (transcriptRole s)
    (selectedCharacter s) (callRef s) (audioRef s) (calls s) (audios s)
    (pendingFetch s) (leaving s) (destroying s) (oplog s).

Definition with_agentState (v : AgentState.t) (s : State) : State :=
  mkState (connectionState s) v (isMuted s) (transcript s) (transcriptRole s)
    (selectedCharacter s) (callRef s) (audioRef s) (calls s) (audios s)
    (pendingFetch s) (leaving s) (destroying s) (oplog s).

Definition with_isMuted (v : bool) (s : State) : State :=
  mkState (connectionState s) (agentState s) v (transcript s)
    (transcriptRole s) (selectedCharacter s) (callRef s) (audioRef s)
    (calls s) (audios s) (pendingFetch s) (leaving s) (destroying s) (oplog s).

Definition with_transcript (v : jsval) (s : State) : State :=
  mkState (connectionState s) (agentState s) (isMuted s) v (transcriptRole s)
    (selectedCharacter s) (callRef s) (audioRef s) (calls s) (audios s)
    (pendingFetch s) (leaving s) (destroying s) (oplog s).

Definition with_transcriptRole (v : jsval) (s : State) : State :=
  mkState (connectionState s) (agentState s) (isMuted s) (transcript s) v
    (selectedCharacter s) (callRef s) (audioRef s) (calls s) (audios s)
    (pendingFetch s) (leaving s) (destroying s) (oplog s).

Definition with_selectedCharacter (v : string) (s : State) : State :=
  mkState (connectionState s) (agentState s) (isMuted s) (transcript s)
    (transcriptRole s) v (callRef s) (audioRef s) (calls s) (audios s)
    (pendingFetch s) (leaving s) (destroying s) (oplog s).

Definition with_callRef (v : option nat) (s : State) : State :=
  mkState (connectionState s) (agentState s) (isMuted s) (transcript s)
    (transcriptRole s) (selectedCharacter s) v (audioRef s) (calls s)
    (audios s) (pendingFetch s) (leaving s) (destroying s) (oplog s).

Definition with_audioRef (v : option nat) (s : State) : State :=
  mkState (connectionState s) (agentState s) (isMuted s) (transcript s)
    (transcriptRole s) (selectedCharacter s) (callRef s) v (calls s)
    (audios s) (pendingFetch s) (leaving s) (destroying s) (oplog s).

Definition with_calls (v : list DailyCall) (s : State) : State :=
  mkState (connectionState s) (agentState s) (isMuted s) (transcript s)
    (transcriptRole s) (selectedCharacter s) (callRef s) (audioRef s) v
    (audios s) (pendingFetch s) (leaving s) (destroying s) (oplog s).

Definition with_audios (v : list HTMLAudioElement) (s : State) : State :=
  mkState (connectionState s) (agentState s) (isMuted s) (transcript s)
    (transcriptRole s) (selectedCharacter s) (callRef s) (audioRef s)
    (calls s) v (pendingFetch s) (leaving s) (destroying s) (oplog s).

Definition with_pendingFetch (v : nat) (s : State) : State :=
  mkState (connectionState s) (agentState s) (isMuted s) (transcript s)
    (transcriptRole s) (selectedCharacter s) (callRef s) (audioRef s)
    (calls s) (audios s) v (leaving s) (destroying s) (oplog s).

Definition with_leaving (v : list nat) (s : State) : State :=
  mkState (connectionState s) (agentState s) (isMuted s) (transcript s)
    (transcriptRole s) (selectedCharacter s) (callRef s) (audioRef s)
    (calls s) (audios s) (pendingFetch s) v (destroying s) (oplog s).

Definition with_destroying (v : list nat) (s : State) : State :=
  mkState (connectionState s) (agentState s) (isMuted s) (transcript s)
    (transcriptRole s) (selectedCharacter s) (callRef s) (audioRef s)
    (calls s) (audios s) (pendingFetch s) (leaving s) v (oplog s).

Definition with_oplog (v : list Op) (s : State) : State :=
  mkState (connectionState s) (agentState s) (isMuted s) (transcript s)
    (transcriptRole s) (selectedCharacter s) (callRef s) (audioRef s)
    (calls s) (audios s) (pendingFetch s) (leaving s) (destroying s) v.

(** ** The turn monad: state plus uncaught exceptions *)

Inductive Result (A : Type) : Type :=
| Ok (a : A) (s : State)
| Throw (e : JsError).
Arguments Ok {A} a s.
Arguments Throw {A} e.

Definition M (A : Type) : Type := State -> Result A.

#[global] Instance M_ret : MRet M := fun A a s => Ok a s.

#[global] Instance M_bind : MBind M := fun A B f m s =>
  match m s with
  | Ok a s' => f a s'
  | Throw e => Throw e
  end.

Definition gets {A : Type} (f : State -> A) : M A := fun s => Ok (f s) s.
Definition modify (f : State -> State) : M unit := fun s => Ok tt (f s).
Definition throw {A : Type} (e : JsError) : M A := fun _ => Throw e.
Definition skip : M unit := mret tt.

(** [try { m } catch { h }].  Every command of this file that throws does
    so before the block it is in has written anything, so the handler
    starts from the state the block started from. *)
Definition try_catch {A : Type} (m h : M A) : M A := fun s =>
  match m s with
  | Ok a s' => Ok a s'
  | Throw _ => h s
  end.
Definition emit (o : Op) : M unit := modify (fun s => with_oplog (oplog s ++ [o]) s).

(** React state setters. *)
Definition setConnectionState (v : ConnectionState.t) : M unit := modify (with_connectionState v).
Definition setAgentState (v : AgentState.t) : M unit := modify (with_agentState v).
Definition setIsMuted (v : bool) : M unit := modify (with_isMuted v).
Definition setTranscript (v : jsval) : M unit := modify (with_transcript v).
Definition setTranscriptRole (v : jsval) : M unit := modify (with_transcriptRole v).
Definition setSelectedCharacter (v : string) : M unit := modify (with_selectedCharacter v).

(** [o.k]: reading a property throws on [undefined] and [null]; on an
    object it yields the field or [undefined]; on the other values it goes
    to the prototype, which defines none of the names this program reads
    ([type], [status], [text], [role]). *)
Definition get_prop (o : jsval) (k : string) : M jsval :=
  match o with
  | JUndefined | JNull => throw (TypeError "Cannot read properties of undefined")
  | JObj fields => mret (default JUndefined (assoc k fields))
  | _ => mret JUndefined
  end.

(** ** Outside objects *)

(** [new Audio()]: a fresh, paused, unbound element at the next index. *)
Definition new_Audio : M nat := fun s =>
  let a := length (audios s) in
  Ok a (with_oplog (oplog s ++ [OpNewAudio a])
          (with_audios (audios s ++ [{| srcObject := None; autoplay := false; paused := true |}]) s)).

Definition update_audio (a : nat) (f : HTMLAudioElement -> HTMLAudioElement) : M unit :=
  modify (fun s => with_audios (alter f a (audios s)) s).

(** [a.pause()] *)
Definition audio_pause (a : nat) : M unit :=
  emit (OpPause a) ;;
  update_audio a (fun el => {| srcObject := srcObject el; autoplay := autoplay el; paused := true |}).

(** [a.srcObject = src] *)
Definition audio_set_srcObject (a : nat) (src : option MediaStream) : M unit :=
  emit (OpSetSrcObject a src) ;;
  update_audio a (fun el => {| srcObject := src; autoplay := autoplay el; paused := paused el |}).

(** [a.autoplay = b] *)
Definition audio_set_autoplay (a : nat) (b : bool) : M unit :=
  emit (OpSetAutoplay a b) ;;
  update_audio a (fun el => {| srcObject := srcObject el; autoplay := b; paused := paused el |}).

(** [a.play().catch(console.error)]: the host decides whether playback
    starts ([allowed]); a refusal is logged and swallowed. *)
Definition audio_play (a : nat) (allowed : bool) : M unit :=
  emit (OpPlay a) ;;
  if allowed
  then update_audio a (fun el => {| srcObject := srcObject el; autoplay := autoplay el; paused := false |})
  else skip.

(** [Daily.createCallObject({ audioSource: true, videoSource: false })].
    The library allows one call object at a time: while one exists that
    was not destroyed it throws. *)
Definition createCallObject : M nat := fun s =>
  if forallb destroyed (calls s) then
    let c := length (calls s) in
    Ok c (with_oplog (oplog s ++ [OpCreateCallObject c])
            (with_calls (calls s ++ [{| localAudioEnabled := true; meetingState := ms_new; destroyed := false |}]) s))
  else Throw (Error "Duplicate DailyIframe instances are not allowed").

Definition update_call (c : nat) (f : DailyCall -> DailyCall) : M unit :=
  modify (fun s => with_calls (alter f c (calls s)) s).

Definition set_meetingState (m : MeetingState) (call : DailyCall) : DailyCall :=
  {| localAudioEnabled := localAudioEnabled call; meetingState := m; destroyed := destroyed call |}.

Definition set_localAudioEnabled (b : bool) (call : DailyCall) : DailyCall :=
  {| localAudioEnabled := b; meetingState := meetingState call; destroyed := destroyed call |}.

Definition set_destroyed (call : DailyCall) : DailyCall :=
  {| localAudioEnabled := localAudioEnabled call; meetingState := meetingState call; destroyed := true |}.

(** [c.join({ url, token })], up to the suspension. *)
Definition call_join (c : nat) (url token : string) : M unit :=
  emit (OpJoin c url token) ;;
  update_call c (set_meetingState ms_joining).

(** [c.leave()], the call itself: what the transport does about it comes
    as later turns ([left_meeting], [leave_settled]). *)
Definition call_leave (c : nat) : M unit :=
  emit (OpLeave c).

(** [c.destroy()], the call itself; the call object counts as destroyed
    once the promise settles ([destroy_settled]). *)
Definition call_destroy (c : nat) : M unit :=
  emit (OpDestroy c).

(** [c.localAudio()]: the transport's own flag. *)
Definition call_localAudio (c : nat) : M bool := fun s =>
  match calls s !! c with
  | Some call => Ok (localAudioEnabled call) s
  | None => Throw (TypeError "dangling call reference")
  end.

(** [c.setLocalAudio(b)] *)
Definition call_setLocalAudio (c : nat) (b : bool) : M unit :=
  emit (OpSetLocalAudio c b) ;;
  update_call c (set_localAudioEnabled b).

(** ** Transport callbacks registered by [connect] *)

(** [callObject.on('joined-meeting', ...)] *)
Definition on_joined_meeting : M unit :=
  setConnectionState ConnectionState.connected ;;
  setAgentState AgentState.idle.

(** [callObject.on('left-meeting', ...)] *)
Definition on_left_meeting : M unit :=
  setConnectionState ConnectionState.idle ;;
  setAgentState AgentState.idle ;;
  setTranscript (JStr "") ;;
  setTranscriptRole (JStr "").

(** [callObject.on('error', ...)] *)
Definition on_error : M unit :=
  setConnectionState ConnectionState.error.

(** The guard of the ['track-started'] callback:
    [event.track?.kind === 'audio' && event.participant && !event.participant.local]. *)
Definition remote_audio (event : TrackEvent) : option MediaStreamTrack :=
  match track event with
  | Some t =>
      if String.eqb (kind t) "audio" then
        match participant event with
        | Some p => if negb (local p) then Some t else None
        | None => None
        end
      else None
  | None => None
  end.

(** [callObject.on('track-started', ...)] *)
Definition on_track_started (event : TrackEvent) (playAllowed : bool) : M unit :=
  match remote_audio event with
  | Some t =>
      cur ← gets audioRef;
      match cur with
      | Some old => audio_pause old ;; audio_set_srcObject old None
      | None => skip
      end ;;
      audio ← new_Audio;
      audio_set_srcObject audio (Some [t]) ;;
      audio_set_autoplay audio true ;;
      modify (with_audioRef (Some audio)) ;;
      audio_play audio playAllowed
  | None => skip
  end.

(** The [switch (data.status)] of the ['app-message'] callback. *)
Definition status_switch (status : jsval) : AgentState.t :=
  if strict_eq_str status "listening" then AgentState.listening
  else if strict_eq_str status "stt" then AgentState.listening
  else if strict_eq_str status "llm" then AgentState.thinking
  else if strict_eq_str status "tts" then AgentState.speaking
  else AgentState.idle.

(** [callObject.on('app-message', ...)], applied to [event.data]. *)
Definition on_app_message (data : jsval) : M unit :=
  if truthy data then
    ty ← get_prop data "type";
    (if strict_eq_str ty "status" then
       status ← get_prop data "status";
       setAgentState (status_switch status)
     else skip) ;;
    ty' ← get_prop data "type";
    if strict_eq_str ty' "transcript" then
      text ← get_prop data "text";
      if truthy text then
        setTranscript text ;;
        role ← get_prop data "role";
        setTranscriptRole (js_or role (JStr "assistant"))
      else skip
    else skip
  else skip.

(** ** User intents *)

(** [connect], from the click to [await fetch(...)]. *)
Definition connect : M unit :=
  cs ← gets connectionState;
  if bool_decide (cs ≠ ConnectionState.idle) && bool_decide (cs ≠ ConnectionState.error)
  then skip
  else
    setConnectionState ConnectionState.connecting ;;
    character ← gets selectedCharacter;
    emit (OpFetch character) ;;
    modify (fun s => with_pendingFetch (S (pendingFetch s)) s).

(** How the provisioning request ends: a success response carrying
    [room_url] and [token], or anything that lands in the [catch] (the
    request rejected, [!response.ok], an undecodable body). *)
Inductive FetchOutcome : Type :=
| FetchOk (room_url token : string)
| FetchFailed.

(** [connect], from the settled request to [await callObject.join(...)],
    inside its [try]: whatever throws lands in the [catch], which sets
    [error].  The five [callObject.on] registrations are the callbacks
    above. *)
Definition connect_resume (r : FetchOutcome) : M unit :=
  match r with
  | FetchOk room_url token =>
      try_catch
        (callObject ← createCallObject;
         modify (with_callRef (Some callObject)) ;;
         call_join callObject room_url token)
        (setConnectionState ConnectionState.error)
  | FetchFailed =>
      setConnectionState ConnectionState.error
  end.

(** [connect], the [catch] reached when [join] rejects. *)
Definition connect_catch : M unit :=
  setConnectionState ConnectionState.error.

(** The four setters [disconnect] ends with. *)
Definition disconnect_finish : M unit :=
  setConnectionState ConnectionState.idle ;;
  setAgentState AgentState.idle ;;
  setTranscript (JStr "") ;;
  setTranscriptRole (JStr "").

(** [disconnect], from the click to [await callRef.current.leave()]; with
    no session there is nothing to await and it runs to its end. *)
Definition disconnect : M unit :=
  a ← gets audioRef;
  match a with
  | Some audio =>
      audio_pause audio ;;
      audio_set_srcObject audio None ;;
      modify (with_audioRef None)
  | None => skip
  end ;;
  c ← gets callRef;
  match c with
  | Some call =>
      call_leave call ;;
      modify (fun s => with_leaving (leaving s ++ [call]) s)
  | None => disconnect_finish
  end.

(** [disconnect], from the settled [leave()] to
    [await callRef.current.destroy()].  The reference is read again; if it
    was cleared meanwhile the call on [null] throws, the promise of
    [disconnect] rejects with nobody awaiting it, and the rest never
    runs. *)
Definition disconnect_after_leave : M unit :=
  try_catch
    (c ← gets callRef;
     match c with
     | Some call =>
         call_destroy call ;;
         modify (fun s => with_destroying (destroying s ++ [call]) s)
     | None => throw (TypeError "Cannot read properties of null")
     end)
    skip.

(** [disconnect], from the settled [destroy()] to its end. *)
Definition disconnect_after_destroy : M unit :=
  modify (with_callRef None) ;;
  disconnect_finish.

(** [toggleMute] *)
Definition toggleMute : M unit :=
  c ← gets callRef;
  match c with
  | Some call =>
      enabled ← call_localAudio call;
      let currentMuteState := bool_decide (enabled = false) in
      call_setLocalAudio call currentMuteState ;;
      setIsMuted (negb currentMuteState)
  | None => skip
  end.

(** The character buttons: [!isDisabled && setSelectedCharacter(char.id)]. *)
Definition selectCharacter (id : string) : M unit :=
  cs ← gets connectionState;
  let isDisabled :=
    bool_decide (cs = ConnectionState.connecting) || bool_decide (cs = ConnectionState.connected) in
  if negb isDisabled then setSelectedCharacter id else skip.

(** ** The event loop *)

(** One turn of the loop: a user intent, the settling of a suspended
    [connect], a callback of call object [c], the transport changing the
    microphone flag on its own, or the settling of the [leave()] or the
    [destroy()] of call object [c] that a [disconnect] awaits (both
    promises are taken to resolve, as the library's do). *)
Inductive Event : Type :=
| connect_intent
| disconnect_intent
| toggleMute_intent
| selectCharacter_intent (id : string)
| fetch_settled (r : FetchOutcome)
| join_rejected (c : nat)
| joined_meeting (c : nat)
| left_meeting (c : nat)
| transport_error (c : nat)
| track_started (c : nat) (event : TrackEvent) (playAllowed : bool)
| app_message (c : nat) (data : jsval)
| local_audio_changed (c : nat) (enabled : bool)
| leave_settled (c : nat)
| destroy_settled (c : nat).

(** The code run by each turn. *)
Definition handler (e : Event) : M unit :=
  match e with
  | connect_intent => connect
  | disconnect_intent => disconnect
  | toggleMute_intent => toggleMute
  | selectCharacter_intent id => selectCharacter id
  | fetch_settled r => connect_resume r
  | join_rejected _ => connect_catch
  | joined_meeting _ => on_joined_meeting
  | left_meeting _ => on_left_meeting
  | transport_error _ => on_error
  | track_started _ event playAllowed => on_track_started event playAllowed
  | app_message _ data => on_app_message data
  | local_audio_changed _ _ => skip
  | leave_settled _ => disconnect_after_leave
  | destroy_settled _ => disconnect_after_destroy
  end.

(** Call object [c] exists, is not destroyed and is in one of [states]. *)
Definition call_in (states : list MeetingState) (c : nat) (s : State) : bool :=
  match calls s !! c with
  | Some call => negb (destroyed call) && bool_decide (meetingState call ∈ states)
  | None => false
  end.

Definition move_call (c : nat) (f : DailyCall -> DailyCall) (s : State) : State :=
  with_calls (alter f c (calls s)) s.

(** [l] without the first [c] in it. *)
Fixpoint remove_first (c : nat) (l : list nat) : list nat :=
  match l with
  | [] => []
  | x :: rest => if Nat.eqb x c then rest else x :: remove_first c rest
  end.

(** The environment: when a turn can happen, and what the transport has
    already changed on its side when the callback runs.  Intents are always
    possible; a request settles only if one is pending; a call object emits
    [joined-meeting] out of [ms_joining], tracks and messages while
    [ms_joined], and leaves or fails out of either, of its own or because
    [leave()] was called; an awaited [leave()] settles once the call object
    is out of the meeting; an awaited [destroy()] settles with the call
    object destroyed. *)
Definition occurs (e : Event) (s : State) : option State :=
  match e with
  | connect_intent | disconnect_intent | toggleMute_intent | selectCharacter_intent _ =>
      Some s
  | fetch_settled _ =>
      match pendingFetch s with
      | S n => Some (with_pendingFetch n s)
      | O => None
      end
  | join_rejected c =>
      if call_in [ms_joining] c s then Some (move_call c (set_meetingState ms_error) s) else None
  | joined_meeting c =>
      if call_in [ms_joining] c s then Some (move_call c (set_meetingState ms_joined) s) else None
  | left_meeting c =>
      if call_in [ms_joining; ms_joined] c s then Some (move_call c (set_meetingState ms_left) s) else None
  | transport_error c =>
      if call_in [ms_joining; ms_joined] c s then Some (move_call c (set_meetingState ms_error) s) else None
  | track_started c _ _ | app_message c _ =>
      if call_in [ms_joined] c s then Some s else None
  | local_audio_changed c enabled =>
      if call_in [ms_new; ms_joining; ms_joined; ms_left; ms_error] c s
      then Some (move_call c (set_localAudioEnabled enabled) s) else None
  | leave_settled c =>
      if bool_decide (c ∈ leaving s) && negb (call_in [ms_joining; ms_joined] c s)
      then Some (with_leaving (remove_first c (leaving s)) s) else None
  | destroy_settled c =>
      if bool_decide (c ∈ destroying s)
      then Some (with_destroying (remove_first c (destroying s)) (move_call c set_destroyed s))
      else None
  end.

Inductive Outcome : Type :=
| Next (s : State)
| Uncaught (e : JsError)
| Impossible.

Definition step (s : State) (e : Event) : Outcome :=
  match occurs e s with
  | Some s1 =>
      match handler e s1 with
      | Ok _ s2 => Next s2
      | Throw err => Uncaught err
      end
  | None => Impossible
  end.

Fixpoint run (s : State) (events : list Event) : option State :=
  match events with
  | [] => Some s
  | e :: rest =>
      match step s e with
      | Next s' => run s' rest
      | _ => None
      end
  end.

Definition reachable (s : State) : Prop := ∃ events, run init events = Some s.

(** A [disconnect] that nothing interrupts: the click, the [left-meeting]
    that the [leave()] brings about if the referenced call object is in a
    meeting, and the two settlings.  With no session it is the click
    alone. *)
Definition hang_up (s : State) : list Event :=
  match callRef s with
  | Some c =>
      [disconnect_intent] ++
      (if call_in [ms_joining; ms_joined] c s then [left_meeting c] else []) ++
      [leave_settled c; destroy_settled c]
  | None => [disconnect_intent]
  end.

(** ** The status protocol decoder, as a function *)

(** What one application message amounts to: nothing, a new agent state,
    or a new transcript with its role. *)
Inductive DecodedEvent : Type :=
| StatusEvent (a : AgentState.t)
| TranscriptEvent (text role : jsval).

Definition apply_decoded (ev : option DecodedEvent) (s : State) : State :=
  match ev with
  | Some (StatusEvent a) => with_agentState a s
  | Some (TranscriptEvent text role) => with_transcriptRole role (with_transcript text s)
  | None => s
  end.

(** A named sub-field of a payload; a payload that is not an object has
    none. *)
Definition field (data : jsval) (k : string) : option jsval :=
  match data with
  | JObj fields => assoc k fields
  | _ => None
  end.

(** The fixed lookup [listening|stt -> listening, llm -> thinking,
    tts -> speaking]. *)
Definition status_table : list (string * AgentState.t) :=
  [("listening", AgentState.listening); ("stt", AgentState.listening);
   ("llm", AgentState.thinking); ("tts", AgentState.speaking)].

Fixpoint table_lookup (k : string) (table : list (string * AgentState.t)) : option AgentState.t :=
  match table with
  | [] => None
  | (k', a) :: rest => if String.eqb k k' then Some a else table_lookup k rest
  end.

Definition lookup_status (status : option jsval) : AgentState.t :=
  match status with
  | Some (JStr name) => default AgentState.idle (table_lookup name status_table)
  | _ => AgentState.idle
  end.

(** The reference decoder, following the specification's wording: a
    transcript needs a non-empty [text]; the role defaults to
    ["assistant"] if omitted. *)
Definition decode_spec (data : jsval) : option DecodedEvent :=
  match field data "type" with
  | Some (JStr ty) =>
      if String.eqb ty "status" then
        Some (StatusEvent (lookup_status (field data "status")))
      else if String.eqb ty "transcript" then
        match field data "text" with
        | Some (JStr text) =>
            if String.eqb text "" then None
            else Some (TranscriptEvent (JStr text)
                         (match field data "role" with
                          | Some role => role
                          | None => JStr "assistant"
                          end))
        | _ => None
        end
      else None
  | _ => None
  end.

(** The reference decoder with the role default the handler really
    applies: ["assistant"] when the role is omitted or empty. *)
Definition decode_amended (data : jsval) : option DecodedEvent :=
  match field data "type" with
  | Some (JStr ty) =>
      if String.eqb ty "status" then
        Some (StatusEvent (lookup_status (field data "status")))
      else if String.eqb ty "transcript" then
        match field data "text" with
        | Some (JStr text) =>
            if String.eqb text "" then None
            else Some (TranscriptEvent (JStr text)
                         (match field data "role" with
                          | Some role =>
                              if strict_eq_str role "" then JStr "assistant" else role
                          | None => JStr "assistant"
                          end))
        | _ => None
        end
      else None
  | _ => None
  end.

(** The shape the handler declares for a payload, as far as the
    transcript goes: [text?: string; role?: string]. *)
Definition string_if_present (o : option jsval) : bool :=
  match o with
  | None | Some (JStr _) => true
  | _ => false
  end.

Definition declared_shape (data : jsval) : bool :=
  string_if_present (field data "text") && string_if_present (field data "role").

(** ** Sinks *)

(** A sink is alive while it is bound to a stream or playing. *)
Definition alive (el : HTMLAudioElement) : bool :=
  bool_decide (srcObject el ≠ None) || negb (paused el).

(** Every alive sink is the one [audioRef] points to. *)
Definition sink_inv (s : State) : Prop :=
  ∀ a el, audios s !! a = Some el → alive el = true → audioRef s = Some a.

(** Exactly one sink is alive, it is the current one and it plays [t]. *)
Definition one_sink_bound_to (t : MediaStreamTrack) (s : State) : Prop :=
  ∃ a el,
    audioRef s = Some a ∧ audios s !! a = Some el ∧
    srcObject el = Some [t] ∧ alive el = true ∧
    ∀ a' el', audios s !! a' = Some el' → alive el' = true → a' = a.

(** What the track callback does to the sink it finds. *)
Definition release_ops (cur : option nat) : list Op :=
  match cur with
  | Some old => [OpPause old; OpSetSrcObject old None]
  | None => []
  end.

(** What it does to build the next one, at index [a]. *)
Definition bind_ops (a : nat) (t : MediaStreamTrack) : list Op :=
  [OpNewAudio a; OpSetSrcObject a (Some [t]); OpSetAutoplay a true; OpPlay a].

(** ** Sessions *)

(** The session reference, when set, points to a call object. *)
Definition ref_valid (s : State) : Prop :=
  ∀ c, callRef s = Some c → c < length (calls s).

(** ** Sample payloads, events and traces *)

Definition msg_status (status : string) : jsval :=
  JObj [("type", JStr "status"); ("status", JStr status)].

Definition msg_transcript (text role : string) : jsval :=
  JObj [("type", JStr "transcript"); ("text", JStr text); ("role", JStr role)].

Definition remote_track (n : nat) : TrackEvent :=
  {| track := Some {| kind := "audio"; trackId := n |};
     participant := Some {| local := false |} |}.

(** A call that got through: connect, room granted, joined. *)
Definition go_live : list Event :=
  [connect_intent; fetch_settled (FetchOk "wss://x" "t1"); joined_meeting 0].

(** The state once the call is live and the remote voice is playing. *)
Definition live_with_sink : State :=
  Eval vm_compute in default init (run init (go_live ++ [track_started 0 (remote_track 7) true])).

(** The state once the call is live and the transport has switched the
    microphone off on its own: [isMuted] still says [false]. *)
Definition live_mic_off_out_of_band : State :=
  Eval vm_compute in default init (run init (go_live ++ [local_audio_changed 0 false])).

(** The state while the first call object is joining. *)
Definition joining : State :=
  Eval vm_compute in default init (run init (take 2 go_live)).

(** A call that fails with a transcript on screen, and the retry: the
    call button is pressed and the room is granted. *)
Definition retry_after_error : list Event :=
  go_live ++
  [app_message 0 (msg_transcript "hello" "user"); transport_error 0;
   connect_intent; fetch_settled (FetchOk "wss://y" "t2")].

(** The state when, after that, the call button is pressed once more. *)
Definition retrying_again : State :=
  Eval vm_compute in default init (run init (retry_after_error ++ [connect_intent])).

(** ** The character catalog *)

Module Character.
Record t : Type := {
  id : string;
  name : string;
  color : string;
  avatar : string
}.
End Character.

Definition CHARACTERS : list Character.t :=
  [ {| Character.id := "bugs"; Character.name := "Bugs Bunny"; Character.color := "#E8784A";
       Character.avatar := "https://cambai-not-ai.conbersa.ai/bugs-bunny.png" |};
    {| Character.id := "lola"; Character.name := "Lola Bunny"; Character.color := "#A0A0A0";
       Character.avatar := "https://cambai-not-ai.conbersa.ai/lola-bunny.png" |};
    {| Character.id := "daffy"; Character.name := "Daffy Duck"; Character.color := "#808080";
       Character.avatar := "https://cambai-not-ai.conbersa.ai/daffy-duck.png" |} ].

(** ** Unmount *)

(** The cleanup returned by the [useEffect]: it stops and detaches the
    referenced sink and calls [leave()] then [destroy()] on the referenced
    call object, without awaiting either, and clears nothing. *)
Definition cleanup : M unit :=
  a ← gets audioRef;
  match a with
  | Some audio =>
      audio_pause audio ;;
      audio_set_srcObject audio None
  | None => skip
  end ;;
  c ← gets callRef;
  match c with
  | Some call =>
      call_leave call ;;
      call_destroy call
  | None => skip
  end.

(** A turn of the component's life: a turn of the loop, or the unmount
    that ends it. *)
Inductive Turn : Type :=
| during (e : Event)
| unmount.

Definition perform (s : State) (t : Turn) : Outcome :=
  match t with
  | during e => step s e
  | unmount =>
      match cleanup s with
      | Ok _ s' => Next s'
      | Throw err => Uncaught err
      end
  end.

(** ** What is rendered *)

Inductive Icon : Type := Phone | PhoneOff | Mic | MicOff.

(** The nodes of the rendered tree that depend on the state: a paragraph
    with its class and its child, a bare value, a control button (the
    handler it runs as the turn it causes, [disabled], the part of its
    class that picks its colour, its icon) and a character button.  Sizes,
    spacing and transitions are left out. *)
Inductive Node : Type :=
| Paragraph (className : string) (child : jsval)
| Bare (v : jsval)
| ControlButton (onClick : option Event) (disabled : bool) (className : string) (icon : Icon)
| CharacterButton (char : Character.t) (isSelected isDisabled : bool).

(** [{v && <node/>}]: the nodes if [v] is truthy, else [v] itself, of
    which React draws nothing unless it is a number. *)
Definition jsx_and (v : jsval) (nodes : list Node) : list Node :=
  if truthy v then nodes
  else match v with
       | JNum _ => [Bare v]
       | _ => []
       end.

(** [{b && <node/>}] for a boolean [b]. *)
Definition jsx_when (b : bool) (nodes : list Node) : list Node :=
  if b then nodes else [].

(** The character pills. *)
Definition character_buttons (s : State) : list Node :=
  map (λ char,
         let isSelected := String.eqb (selectedCharacter s) (Character.id char) in
         let isDisabled :=
           bool_decide (connectionState s = ConnectionState.connecting) ||
           bool_decide (connectionState s = ConnectionState.connected) in
         CharacterButton char isSelected isDisabled)
      CHARACTERS.

(** The transcript / status display. *)
Definition panel (s : State) : list Node :=
  jsx_when (bool_decide (connectionState s = ConnectionState.idle))
    [Paragraph "text-gray-500 text-center" (JStr "Tap to start the call...")] ++
  jsx_when (bool_decide (connectionState s = ConnectionState.connecting))
    [Paragraph "text-gray-400 text-center" (JStr "Connecting...")] ++
  jsx_when (bool_decide (connectionState s = ConnectionState.error))
    [Paragraph "text-red-400 text-center" (JStr "Connection failed. Tap to retry.")] ++
  jsx_when (bool_decide (connectionState s = ConnectionState.connected))
    (jsx_when (negb (truthy (transcript s)) &&
               (bool_decide (agentState s = AgentState.listening) ||
                bool_decide (agentState s = AgentState.idle)))
       [Paragraph "text-gray-400 text-center" (JStr "Listening...")] ++
     jsx_when (negb (truthy (transcript s)) &&
               bool_decide (agentState s = AgentState.thinking))
       [Paragraph "text-gray-400 text-center" (JStr "Thinking...")] ++
     jsx_and (transcript s)
       [Paragraph
          (String.append "text-center text-lg "
             (if strict_eq_str (transcriptRole s) "user"
              then "text-camb-orange" else "text-gray-200"))
          (transcript s)]).

(** The call controls. *)
Definition controls (s : State) : list Node :=
  jsx_when (bool_decide (connectionState s = ConnectionState.idle) ||
            bool_decide (connectionState s = ConnectionState.error))
    [ControlButton (Some connect_intent) false "bg-camb-orange hover:bg-camb-orange/90" Phone] ++
  jsx_when (bool_decide (connectionState s = ConnectionState.connecting))
    [ControlButton None true "bg-camb-card" Mic;
     ControlButton (Some disconnect_intent) false "bg-red-500 hover:bg-red-600" PhoneOff] ++
  jsx_when (bool_decide (connectionState s = ConnectionState.connected))
    [ControlButton (Some toggleMute_intent) false
       (if isMuted s then "bg-red-500/20 text-red-400 hover:bg-red-500/30"
        else if bool_decide (agentState s = AgentState.listening)
             then "bg-white text-black hover:bg-gray-200"
             else "bg-camb-card text-gray-400 hover:bg-camb-border hover:text-white")
       (if isMuted s then MicOff else Mic);
     ControlButton (Some disconnect_intent) false "bg-red-500 hover:bg-red-600" PhoneOff].

(** The component's output. *)
Definition App (s : State) : list Node :=
  character_buttons s ++ panel s ++ controls s.

(** What React accepts as a child: strings, numbers, booleans, [null],
    [undefined], and arrays of such; on an object it throws. *)
Fixpoint react_child_ok (v : jsval) : bool :=
  match v with
  | JObj _ => false
  | JArr items => forallb react_child_ok items
  | _ => true
  end.

Definition drawable (n : Node) : bool :=
  match n with
  | Paragraph _ child => react_child_ok child
  | Bare v => react_child_ok v
  | ControlButton _ _ _ _ | CharacterButton _ _ _ => true
  end.

(** What reaches the screen: the component's output, unless React throws
    on one of its nodes; the component has no error boundary, so the whole
    tree is then unmounted. *)
Definition draw (s : State) : option (list Node) :=
  if forallb drawable (App s) then Some (App s) else None.

(** The turn a click on a node causes: none on a paragraph or on a
    disabled button. *)
Definition click (n : Node) : option Event :=
  match n with
  | ControlButton onClick disabled _ _ => if disabled then None else onClick
  | CharacterButton char _ isDisabled =>
      if isDisabled then None else Some (selectCharacter_intent (Character.id char))
  | Paragraph _ _ | Bare _ => None
  end.

Definition is_intent (e : Event) : bool :=
  match e with
  | connect_intent | disconnect_intent | toggleMute_intent | selectCharacter_intent _ => true
  | _ => false
  end.

(** A run in which every intent is a click on something on screen. *)
Fixpoint ui_driven (s : State) (events : list Event) : Prop :=
  match events with
  | [] => True
  | e :: rest =>
      (is_intent e = true → ∃ n, n ∈ App s ∧ click n = Some e) ∧
      match step s e with
      | Next s' => ui_driven s' rest
      | _ => True
      end
  end.

(** ** What backs the connection state *)

(** Something is still under way: a provisioning request is pending or a
    call object is joining. *)
Definition in_flight (s : State) : Prop :=
  0 < pendingFetch s ∨ ∃ c, call_in [ms_joining] c s = true.

(** [connecting] has something under way behind it, [connected] has a
    joined call object behind it. *)
Definition backed (s : State) : Prop :=
  (connectionState s = ConnectionState.connecting → in_flight s) ∧
  (connectionState s = ConnectionState.connected → ∃ c, call_in [ms_joined] c s = true).

(** Transcript and role are cleared. *)
Definition quiet (s : State) : Prop :=
  transcript s = JStr "" ∧ transcriptRole s = JStr "".

(** At most one of the call objects is not destroyed. *)
Definition one_at_a_time (l : list DailyCall) : Prop :=
  ∀ c c' call call',
    l !! c = Some call → l !! c' = Some call' →
    destroyed call = false → destroyed call' = false → c = c'.

(** At most one call object is not destroyed; with none, and while the one
    there is has not joined yet, the transcript is cleared. *)
Definition fresh_inv (s : State) : Prop :=
  one_at_a_time (calls s) ∧
  ((∀ c call, calls s !! c = Some call → destroyed call = true) → quiet s) ∧
  (∀ c call,
     calls s !! c = Some call → destroyed call = false →
     meetingState call = ms_new ∨ meetingState call = ms_joining → quiet s).


(** Successful provisioning responses in a trace. *)
Definition is_FetchOk (e : Event) : bool :=
  match e with
  | fetch_settled (FetchOk _ _) => true
  | _ => false
  end.

(** The state after picking Lola and pressing the call button. *)
Definition lola_requested : State :=
  Eval vm_compute in default init (run init [selectCharacter_intent "lola"; connect_intent]).

(** The call button as drawn in [idle] and [error]. *)
Definition call_button : Node :=
  ControlButton (Some connect_intent) false "bg-camb-orange hover:bg-camb-orange/90" Phone.

(** * Properties *)

(** Scenario A of the specification. *)
Example scenario_A :
  run init go_live
  = Some {| connectionState := ConnectionState.connected;
            agentState := AgentState.idle;
            isMuted := false;
            transcript := JStr "";
            transcriptRole := JStr "";
            selectedCharacter := "bugs";
            callRef := Some 0;
            audioRef := None;
            calls := [{| localAudioEnabled := true; meetingState := ms_joined; destroyed := false |}];
            audios := [];
            pendingFetch := 0;
            leaving := [];
            destroying := [];
            oplog := [OpFetch "bugs"; OpCreateCallObject 0; OpJoin 0 "wss://x" "t1"] |}.
Proof. vm_compute. reflexivity. Qed.

(** Scenarios B, C and D. *)
Example scenario_B_C_D :
  (agentState <$> run init (go_live ++ [app_message 0 (msg_status "tts")])) = Some AgentState.speaking ∧
  ((λ s, (transcript s, transcriptRole s)) <$>
     run init (go_live ++ [app_message 0 (msg_transcript "hello" "user")]))
    = Some (JStr "hello", JStr "user") ∧
  (agentState <$> run init (go_live ++ [app_message 0 (msg_status "tts");
                                         app_message 0 (msg_status "unknown_value")]))
    = Some AgentState.idle.
Proof. vm_compute. repeat split. Qed.

(** Scenario E: a refused provisioning request ends in [error], and no
    call object was made. *)
Example scenario_E :
  run init [connect_intent; fetch_settled FetchFailed]
  = Some (with_oplog [OpFetch "bugs"] (with_connectionState ConnectionState.error init)).
Proof. vm_compute. reflexivity. Qed.

(** ** Unfolding turns *)

Ltac unfold_turn :=
  unfold step, occurs, handler,
    connect, connect_resume, connect_catch, disconnect, disconnect_after_leave,
    disconnect_after_destroy, disconnect_finish, toggleMute, selectCharacter,
    on_joined_meeting, on_left_meeting, on_error, on_track_started, on_app_message,
    call_join, call_leave, call_destroy, call_setLocalAudio, call_localAudio,
    createCallObject, update_call, move_call,
    new_Audio, audio_pause, audio_set_srcObject, audio_set_autoplay, audio_play, update_audio,
    setConnectionState, setAgentState, setIsMuted, setTranscript, setTranscriptRole,
    setSelectedCharacter, get_prop, emit, skip, throw, try_catch, gets, modify,
    mbind, M_bind, mret, M_ret in *.

(** Membership of a given node in the output for a given state. *)
Ltac on_screen :=
  match goal with
  | |- _ ∈ ?l => let l' := eval vm_compute in l in change l with l'
  end;
  unfold call_button; apply list_elem_of_In; cbn;
  repeat first [ left; reflexivity | right ].

(** ** Connect is guarded *)

(** C8. A connect intent issued while [connectionState] is [connecting] or
    [connected] changes nothing at all: the state after the turn is the
    state before it, so no request was sent, no call object was made and
    every observable value is as it was. *)
Theorem connect_guarded (s : State) :
  connectionState s = ConnectionState.connecting ∨
  connectionState s = ConnectionState.connected →
  step s connect_intent = Next s.
Proof.
  intros Hcs. unfold_turn. cbn.
  destruct Hcs as [-> | ->]; reflexivity.
Qed.

Lemma connect_guarded_witness :
  connectionState joining = ConnectionState.connecting ∧
  step joining connect_intent = Next joining.
Proof. split; [reflexivity|]. apply (connect_guarded joining). left. reflexivity. Defined.

(** ** Mute *)

(** C10. With no session ([callRef] is null), the mute toggle is a silent
    no-op: no exception, no transport call, [isMuted] and everything else
    unchanged. *)
Theorem toggleMute_without_session (s : State) :
  callRef s = None →
  step s toggleMute_intent = Next s.
Proof.
  intros Href. unfold_turn. cbn. rewrite Href. reflexivity.
Qed.

Lemma toggleMute_without_session_witness :
  step init toggleMute_intent = Next init.
Proof. apply (toggleMute_without_session init). reflexivity. Defined.

(** Turns other than a settled request neither make nor drop call
    objects; they keep the session reference, except the end of a
    disconnect, which clears it. *)
Lemma step_calls_frame (s s' : State) (e : Event) :
  step s e = Next s' →
  match e with
  | fetch_settled _ => True
  | destroy_settled _ => length (calls s') = length (calls s) ∧ callRef s' = None
  | _ => length (calls s') = length (calls s) ∧ callRef s' = callRef s
  end.
Proof.
  destruct e as [ | | |id|r|c|c|c|c|c event playAllowed|c data|c enabled|c|c]; try done.
  all: unfold step; cbn [handler].
  all: destruct (occurs _ s) as [s1|] eqn:Hocc; [|done].
  all: assert (length (calls s1) = length (calls s) ∧ callRef s1 = callRef s) as [Hl Hr]
         by (unfold occurs, move_call in Hocc; repeat case_match; simplify_eq;
             cbn; by rewrite ?length_alter).
  all: rewrite <- ?Hl, <- ?Hr; clear Hocc Hl Hr.
  all: unfold_turn; cbn.
  10: destruct data; cbn.
  all: repeat case_match; intros; simplify_eq; cbn; by rewrite ?length_alter.
Qed.

Lemma step_ref_valid (s s' : State) (e : Event) :
  ref_valid s → step s e = Next s' → ref_valid s'.
Proof.
  intros Hval Hstep.
  destruct e as [ | | |id|r|c|c|c|c|c event playAllowed|c data|c enabled|c|c].
  5: { revert Hstep. unfold_turn. cbn.
       destruct (pendingFetch s); [done|]. destruct r; cbn.
       - destruct (forallb destroyed (calls s)); cbn.
         + intros [= <-] c'. cbn. intros [= <-].
           rewrite length_alter, length_app. cbn. lia.
         + intros [= <-] c'. cbn. apply Hval.
       - intros [= <-] c'. cbn. apply Hval. }
  13: { apply step_calls_frame in Hstep as [Hlen Href].
        intros c'. by rewrite Href. }
  all: apply step_calls_frame in Hstep as [Hlen Href].
  all: intros c'; rewrite Hlen, Href; apply Hval.
Qed.

Lemma run_ref_valid (events : list Event) (s s' : State) :
  ref_valid s → run s events = Some s' → ref_valid s'.
Proof.
  revert s. induction events as [|e rest IH]; intros s Hval; cbn.
  - by intros [= <-].
  - destruct (step s e) as [s1| |] eqn:Hstep; [|done..].
    apply IH. by eapply step_ref_valid.
Qed.

Lemma toggleMute_with_call (s : State) (c : nat) (call : DailyCall) :
  callRef s = Some c →
  calls s !! c = Some call →
  ∃ s' call',
    step s toggleMute_intent = Next s' ∧
    calls s' !! c = Some call' ∧
    localAudioEnabled call' = negb (localAudioEnabled call) ∧
    isMuted s' = negb (localAudioEnabled call') ∧
    oplog s' = oplog s ++ [OpSetLocalAudio c (negb (localAudioEnabled call))].
Proof.
  intros Href Hcall. unfold_turn. cbn. rewrite Href. cbn. rewrite Hcall. cbn.
  eexists _, _. split; [reflexivity|]. cbn.
  rewrite list_lookup_alter_eq, Hcall. cbn. split; [reflexivity|]. cbn.
  destruct (localAudioEnabled call); cbn; repeat split; congruence.
Qed.

(** C9. After any run, if a session exists the mute toggle completes,
    sets the transport's local-audio flag to the negation of the value the
    transport holds at that moment, whatever [isMuted] says, and leaves
    [isMuted] equal to the negation of the new flag; the one outside call
    is that [setLocalAudio]. *)
Theorem toggleMute_reads_transport (events : list Event) (s : State) (c : nat) :
  run init events = Some s →
  callRef s = Some c →
  ∃ call s' call',
    calls s !! c = Some call ∧
    step s toggleMute_intent = Next s' ∧
    calls s' !! c = Some call' ∧
    localAudioEnabled call' = negb (localAudioEnabled call) ∧
    isMuted s' = negb (localAudioEnabled call') ∧
    oplog s' = oplog s ++ [OpSetLocalAudio c (negb (localAudioEnabled call))].
Proof.
  intros Hrun Href.
  assert (Hval : ref_valid s).
  { eapply run_ref_valid; [|done]. intros c'. done. }
  destruct (lookup_lt_is_Some_2 (calls s) c (Hval c Href)) as [call Hcall].
  destruct (toggleMute_with_call s c call Href Hcall) as (s' & call' & H).
  by exists call, s', call'.
Qed.

(** The transport switched the microphone off on its own, [isMuted] still
    says [false]: the toggle switches it back on and [isMuted] stays
    [false]. *)
Lemma toggleMute_reads_transport_witness :
  isMuted live_mic_off_out_of_band = false ∧
  ∃ call s' call',
    calls live_mic_off_out_of_band !! 0 = Some call ∧
    step live_mic_off_out_of_band toggleMute_intent = Next s' ∧
    calls s' !! 0 = Some call' ∧
    localAudioEnabled call' = negb (localAudioEnabled call) ∧
    isMuted s' = negb (localAudioEnabled call') ∧
    oplog s' = oplog live_mic_off_out_of_band ++
               [OpSetLocalAudio 0 (negb (localAudioEnabled call))].
Proof.
  split; [reflexivity|].
  apply (toggleMute_reads_transport (go_live ++ [local_audio_changed 0 false])
           live_mic_off_out_of_band 0); reflexivity.
Defined.


(** ** Transport callbacks *)

(** The ['error'] callback sets [connectionState] to [error] and does
    nothing else: the sink, the reference to it, the call objects and the
    reference to the session stay as they were, and no call is made to
    either. *)
Lemma transport_error_only_flags (s : State) (c : nat) :
  call_in [ms_joining; ms_joined] c s = true →
  ∃ s',
    step s (transport_error c) = Next s' ∧
    connectionState s' = ConnectionState.error ∧
    audioRef s' = audioRef s ∧ audios s' = audios s ∧
    callRef s' = callRef s ∧ oplog s' = oplog s.
Proof.
  intros Hin. unfold_turn. rewrite Hin. cbn.
  eexists. split; [reflexivity|]. cbn. done.
Qed.

(** A call object that exists and is not destroyed makes
    [createCallObject] throw. *)
Lemma undestroyed_blocks (l : list DailyCall) (c : nat) (call : DailyCall) :
  l !! c = Some call → destroyed call = false → forallb destroyed l = false.
Proof.
  intros Hc Hd. destruct (forallb destroyed l) eqn:Hall; [|done].
  rewrite forallb_forall in Hall.
  assert (destroyed call = true) as Habs; [|congruence].
  apply Hall, list_elem_of_In. by eapply list_elem_of_lookup_2.
Qed.

(** While a call object is left that was not destroyed, a granted room
    makes no session: [createCallObject] throws inside the [try], the
    [catch] sets [error], and neither the call objects nor the session
    reference nor the log of outside calls change. *)
Lemma granted_room_refused (s : State) (room_url token : string) :
  0 < pendingFetch s →
  forallb destroyed (calls s) = false →
  ∃ s',
    step s (fetch_settled (FetchOk room_url token)) = Next s' ∧
    connectionState s' = ConnectionState.error ∧
    calls s' = calls s ∧ callRef s' = callRef s ∧ oplog s' = oplog s.
Proof.
  intros Hp Hall. unfold_turn. cbn.
  destruct (pendingFetch s) as [|n]; [lia|]. cbn. rewrite Hall.
  eexists. split; [reflexivity|]. cbn. done.
Qed.

(** C3, on the code.  After a fatal error in a live call with a playing
    sink, the state is [error] and nothing was released: the sink is still
    bound and referenced, the call object is still referenced and was
    never left or destroyed.  The call button is then on screen, and the
    retry it offers fails: the room is granted, but the call object left
    behind makes [createCallObject] throw, so the retry ends in [error]
    with no session made, whatever room is granted. *)
Theorem transport_error_blocks_retry :
  ∃ s1 el call,
    step live_with_sink (transport_error 0) = Next s1 ∧
    connectionState s1 = ConnectionState.error ∧
    audioRef s1 = Some 0 ∧ audios s1 !! 0 = Some el ∧ alive el = true ∧
    callRef s1 = Some 0 ∧ calls s1 !! 0 = Some call ∧ destroyed call = false ∧
    oplog s1 = oplog live_with_sink ∧
    call_button ∈ App s1 ∧ click call_button = Some connect_intent ∧
    ∀ room_url token,
      ∃ s2,
        run s1 [connect_intent; fetch_settled (FetchOk room_url token)] = Some s2 ∧
        connectionState s2 = ConnectionState.error ∧
        calls s2 = calls s1 ∧ callRef s2 = callRef s1 ∧
        audioRef s2 = audioRef s1 ∧ audios s2 = audios s1 ∧
        oplog s2 = oplog s1 ++ [OpFetch "bugs"].
Proof.
  eexists _, _, _. split; [vm_compute; reflexivity|].
  do 8 (split; [vm_compute; reflexivity|]).
  split; [on_screen|].
  split; [reflexivity|].
  intros room_url token. eexists. split; [vm_compute; reflexivity|].
  vm_compute. done.
Qed.

(** ['joined-meeting'] moves to [connected] and resets [agentState]; it
    does not write the transcript or its role. *)
Lemma joined_sets_connected (s : State) (c : nat) :
  call_in [ms_joining] c s = true →
  ∃ s',
    step s (joined_meeting c) = Next s' ∧
    connectionState s' = ConnectionState.connected ∧
    agentState s' = AgentState.idle ∧
    transcript s' = transcript s ∧ transcriptRole s' = transcriptRole s.
Proof.
  intros Hin. unfold_turn. rewrite Hin. cbn.
  eexists. split; [reflexivity|]. cbn. done.
Qed.

(** ** The status protocol decoder *)

Lemma status_switch_lookup (o : option jsval) :
  status_switch (default JUndefined o) = lookup_status o.
Proof.
  destruct o as [v|]; [|reflexivity].
  destruct v; try reflexivity.
  unfold status_switch, lookup_status, status_table, strict_eq_str. cbn.
  repeat (destruct (String.eqb s _); [reflexivity|]).
  reflexivity.
Qed.

(** The handler returns normally on every payload: the one read that
    could throw, of a property of [null] or [undefined], is behind the
    [if (event.data)]. *)
Lemma on_app_message_total (data : jsval) (s : State) :
  ∃ s', on_app_message data s = Ok tt s'.
Proof.
  unfold on_app_message.
  destruct data as [| |b|n|str|items|fields]; cbn; try (by eexists).
  - destruct b; by eexists.
  - destruct (n =? 0)%Z; by eexists.
  - destruct (String.eqb str ""); by eexists.
  - unfold_turn. cbn.
    destruct (strict_eq_str (default JUndefined (assoc "type" fields)) "status"); cbn;
      (destruct (strict_eq_str (default JUndefined (assoc "type" fields)) "transcript");
       [|by eexists]);
      (destruct (truthy (default JUndefined (assoc "text" fields))); by eexists).
Qed.

(** C6, as the code has it.  The handler returns normally on every
    payload, and on every payload whose [text] and [role], where present,
    are strings it does exactly what [decode_amended] says: a [status]
    message sets the agent state by the fixed lookup ([idle] for any other
    or missing value); a [transcript] message with a non-empty [text]
    replaces the transcript by that text and the role by its role, or by
    ["assistant"] when the role is omitted or empty; every other payload
    changes nothing. *)
Theorem on_app_message_decodes (data : jsval) (s : State) :
  (∃ s', on_app_message data s = Ok tt s') ∧
  (declared_shape data = true →
   on_app_message data s = Ok tt (apply_decoded (decode_amended data) s)).
Proof.
  split; [apply on_app_message_total|].
  unfold on_app_message, decode_amended, declared_shape, field.
  destruct data as [| |b|n|str|items|fields]; cbn; try reflexivity.
  - destruct b; reflexivity.
  - destruct (n =? 0)%Z; reflexivity.
  - destruct (String.eqb str ""); reflexivity.
  - intros [Htext Hrole]%andb_prop. unfold_turn. cbn.
    destruct (assoc "type" fields) as [ty|]; [|reflexivity].
    destruct ty as [| |b|n|ty|items'|fields']; cbn; try reflexivity.
    destruct (String.eqb_spec ty "status") as [-> | Hstatus]; cbn.
    + rewrite status_switch_lookup. reflexivity.
    + destruct (String.eqb ty "transcript"); [|reflexivity].
      destruct (assoc "text" fields) as [[| | | |text| |]|]; try done; cbn.
      destruct (String.eqb text ""); cbn; [reflexivity|].
      destruct (assoc "role" fields) as [[| | | |role| |]|]; try done; cbn.
      unfold js_or. cbn. destruct (String.eqb role ""); reflexivity.
Qed.

Lemma on_app_message_decodes_witness :
  declared_shape (msg_transcript "hi" "") = true ∧
  on_app_message (msg_transcript "hi" "") init
    = Ok tt (apply_decoded (decode_amended (msg_transcript "hi" "")) init).
Proof.
  split; [reflexivity|].
  apply (proj2 (on_app_message_decodes (msg_transcript "hi" "") init)). reflexivity.
Defined.

(** C6 fails as stated: a transcript message whose role is present but
    empty gets the role ["assistant"] from the handler, where the
    reference keeps the role it was given. *)
Lemma empty_role_becomes_assistant :
  on_app_message (msg_transcript "hi" "") init
    = Ok tt (with_transcriptRole (JStr "assistant") (with_transcript (JStr "hi") init)) ∧
  decode_spec (msg_transcript "hi" "") = Some (TranscriptEvent (JStr "hi") (JStr "")) ∧
  on_app_message (msg_transcript "hi" "") init
    ≠ Ok tt (apply_decoded (decode_spec (msg_transcript "hi" "")) init).
Proof. vm_compute. repeat split. discriminate. Qed.

(** The two references differ in the role default alone: they agree on
    every payload whose role is not the empty string. *)
Lemma decode_spec_unless_empty_role (data : jsval) :
  field data "role" ≠ Some (JStr "") →
  decode_spec data = decode_amended data.
Proof.
  intros Hrole. unfold decode_spec, decode_amended.
  destruct (field data "type") as [[| | | |ty| |]|]; try reflexivity.
  destruct (String.eqb ty "status"); [reflexivity|].
  destruct (String.eqb ty "transcript"); [|reflexivity].
  destruct (field data "text") as [[| | | |text| |]|]; try reflexivity.
  destruct (String.eqb text ""); [reflexivity|].
  destruct (field data "role") as [[| | | |role| |]|]; try reflexivity.
  cbn. destruct (String.eqb_spec role "") as [-> | Hne]; [done|reflexivity].
Qed.

(** On the payloads of the wire format the two references agree. *)
Lemma decode_spec_on_wire_format (status text role : string) :
  decode_spec (msg_status status) = decode_amended (msg_status status) ∧
  (text ≠ "" → role ≠ "" →
   decode_spec (msg_transcript text role) = decode_amended (msg_transcript text role)) ∧
  (text ≠ "" →
   decode_spec (JObj [("type", JStr "transcript"); ("text", JStr text)])
   = Some (TranscriptEvent (JStr text) (JStr "assistant")) ∧
   decode_amended (JObj [("type", JStr "transcript"); ("text", JStr text)])
   = Some (TranscriptEvent (JStr text) (JStr "assistant"))).
Proof.
  split; [reflexivity|]. split.
  - intros Ht Hr. cbn.
    destruct (String.eqb_spec text ""); [done|].
    destruct (String.eqb_spec role ""); [done|]. reflexivity.
  - intros Ht. cbn. destruct (String.eqb_spec text ""); [done|]. done.
Qed.

(** Outside the declared shape the handler stores what it is given: a
    [text] that is not a string but truthy becomes the transcript. *)
Example non_string_text_is_stored :
  on_app_message (JObj [("type", JStr "transcript"); ("text", JObj [])]) init
    = Ok tt (with_transcriptRole (JStr "assistant") (with_transcript (JObj []) init)).
Proof. reflexivity. Qed.

(** ** The audio output binder *)

Lemma alter_snoc {A} (f : A → A) (l : list A) (x : A) :
  alter f (length l) (l ++ [x]) = l ++ [f x].
Proof.
  replace (length l) with (length l + 0) by lia.
  by rewrite alter_app_r.
Qed.

(** Stopping and detaching the referenced sink leaves no sink alive. *)
Lemma released_not_alive (s : State) (old a : nat) (el : HTMLAudioElement) :
  sink_inv s →
  audioRef s = Some old →
  alter (λ el, {| srcObject := None; autoplay := autoplay el; paused := paused el |}) old
    (alter (λ el, {| srcObject := srcObject el; autoplay := autoplay el; paused := true |}) old
       (audios s)) !! a = Some el →
  alive el = false.
Proof.
  intros Hinv Hold Hlook.
  destruct (decide (old = a)) as [-> | Hne].
  - rewrite !list_lookup_alter_eq in Hlook.
    destruct (audios s !! a) as [el0|]; [|done].
    cbn in Hlook. by simplify_eq.
  - rewrite !list_lookup_alter_ne in Hlook by done.
    destruct (alive el) eqn:Halive; [|done].
    specialize (Hinv a el Hlook Halive). congruence.
Qed.

Lemma no_ref_not_alive (s : State) (a : nat) (el : HTMLAudioElement) :
  sink_inv s → audioRef s = None → audios s !! a = Some el → alive el = false.
Proof.
  intros Hinv Hnone Hlook.
  destruct (alive el) eqn:Halive; [|done].
  specialize (Hinv a el Hlook Halive). congruence.
Qed.

(** A fresh bound sink appended to sinks that are all dead is the one
    alive sink. *)
Lemma snoc_one_sink (rel : list HTMLAudioElement) (new : HTMLAudioElement)
    (t : MediaStreamTrack) (s' : State) :
  (∀ a el, rel !! a = Some el → alive el = false) →
  audioRef s' = Some (length rel) →
  audios s' = rel ++ [new] →
  srcObject new = Some [t] →
  one_sink_bound_to t s'.
Proof.
  intros Hdead Href Haudios Hsrc.
  exists (length rel), new. rewrite Haudios.
  split; [done|]. split; [by apply list_lookup_middle|]. split; [done|].
  split; [unfold alive; by rewrite Hsrc|].
  intros a' el' [[_ Hlook] | [-> _]]%lookup_snoc_Some Halive; [|done].
  rewrite (Hdead _ _ Hlook) in Halive. done.
Qed.

(** The track callback on a remote audio track: what it calls, in order,
    and the sinks it leaves. *)
Lemma on_track_started_remote (s : State) (event : TrackEvent) (playAllowed : bool)
    (t : MediaStreamTrack) :
  sink_inv s →
  remote_audio event = Some t →
  ∃ s',
    on_track_started event playAllowed s = Ok tt s' ∧
    one_sink_bound_to t s' ∧
    oplog s' = oplog s ++ release_ops (audioRef s) ++ bind_ops (length (audios s)) t ∧
    calls s' = calls s.
Proof.
  intros Hinv Hremote. unfold on_track_started. rewrite Hremote.
  unfold_turn. cbn.
  destruct (audioRef s) as [old|] eqn:Hold; cbn.
  - rewrite !length_alter.
    set (rel := alter _ old (alter _ old (audios s))).
    assert (Hlen : length rel = length (audios s)) by (unfold rel; by rewrite !length_alter).
    assert (Hdead : ∀ a el, rel !! a = Some el → alive el = false)
      by (intros a el; by apply released_not_alive).
    rewrite <- Hlen. rewrite !alter_snoc.
    destruct playAllowed; cbn; rewrite ?alter_snoc; cbn.
    all: eexists; split; [reflexivity|]; cbn.
    all: split; [by eapply snoc_one_sink | split; [by rewrite <- !app_assoc | done]].
  - assert (Hdead : ∀ a el, audios s !! a = Some el → alive el = false)
      by (intros a el; by apply no_ref_not_alive).
    rewrite !alter_snoc.
    destruct playAllowed; cbn; rewrite ?alter_snoc; cbn.
    all: eexists; split; [reflexivity|]; cbn.
    all: split; [by eapply snoc_one_sink | split; [by rewrite <- !app_assoc | done]].
Qed.

(** Every turn but a track callback and the click on hang-up leaves the
    sinks and the reference to them alone. *)
Lemma step_sinks_frame (s s' : State) (e : Event) :
  step s e = Next s' →
  match e with
  | track_started _ _ _ | disconnect_intent => True
  | _ => audios s' = audios s ∧ audioRef s' = audioRef s
  end.
Proof.
  destruct e as [ | | |id|r|c|c|c|c|c event playAllowed|c data|c enabled|c|c]; try done.
  all: unfold step; cbn [handler].
  all: destruct (occurs _ s) as [s1|] eqn:Hocc; [|done].
  all: assert (audios s1 = audios s ∧ audioRef s1 = audioRef s) as [Ha Hr]
         by (unfold occurs, move_call in Hocc; repeat case_match; by simplify_eq).
  all: rewrite <- ?Ha, <- ?Hr; clear Hocc Ha Hr.
  all: unfold_turn; cbn.
  9: destruct data; cbn.
  all: repeat case_match; intros; by simplify_eq.
Qed.

Lemma one_sink_inv (t : MediaStreamTrack) (s : State) :
  one_sink_bound_to t s → sink_inv s.
Proof.
  intros (a & el & Href & _ & _ & _ & Huniq) a' el' Hlook Halive.
  by rewrite (Huniq a' el' Hlook Halive).
Qed.

(** The first turn of a disconnect leaves no sink alive. *)
Lemma disconnect_sinks (s s' : State) :
  sink_inv s →
  step s disconnect_intent = Next s' →
  audioRef s' = None ∧ ∀ a el, audios s' !! a = Some el → alive el = false.
Proof.
  intros Hinv. unfold_turn. cbn.
  destruct (audioRef s) as [old|] eqn:Hold; cbn.
  - pose proof (released_not_alive s old) as Hdead.
    destruct (callRef s); cbn; intros [= <-]; cbn; (split; [done|]);
      intros a el; by apply Hdead.
  - pose proof (no_ref_not_alive s) as Hdead.
    destruct (callRef s); cbn; intros [= <-]; cbn; (split; [done|]);
      intros a el; by apply Hdead.
Qed.

(** The sink invariant holds along every run. *)
Lemma step_sink_inv (s s' : State) (e : Event) :
  sink_inv s → step s e = Next s' → sink_inv s'.
Proof.
  intros Hinv Hstep.
  destruct e as [ | | |id|r|c|c|c|c|c event playAllowed|c data|c enabled|c|c].
  2: { apply disconnect_sinks in Hstep as [_ Hdead]; [|done].
       intros a el Hlook Halive. rewrite (Hdead _ _ Hlook) in Halive. done. }
  9: { revert Hstep. unfold step. cbn [occurs handler].
        destruct (call_in _ c s); [|done].
        destruct (remote_audio event) as [t|] eqn:Hremote.
        - destruct (on_track_started_remote s event playAllowed t Hinv Hremote)
            as (s2 & -> & Hone & _). intros [= <-]. by eapply one_sink_inv.
        - unfold on_track_started. rewrite Hremote. intros [= <-]. done. }
  all: apply step_sinks_frame in Hstep as [Ha Hr].
  all: intros a el; rewrite Ha, Hr; apply Hinv.
Qed.

Lemma run_sink_inv (events : list Event) (s s' : State) :
  sink_inv s → run s events = Some s' → sink_inv s'.
Proof.
  revert s. induction events as [|e rest IH]; intros s Hinv; cbn.
  - by intros [= <-].
  - destruct (step s e) as [s1| |] eqn:Hstep; [|done..].
    apply IH. by eapply step_sink_inv.
Qed.

Lemma reachable_sink_inv (s : State) : reachable s → sink_inv s.
Proof.
  intros [events Hrun]. eapply run_sink_inv; [|done].
  intros a el Hlook. done.
Qed.

Lemma track_started_step (s : State) (c : nat) (event : TrackEvent)
    (playAllowed : bool) (t : MediaStreamTrack) :
  sink_inv s →
  call_in [ms_joined] c s = true →
  remote_audio event = Some t →
  ∃ s',
    step s (track_started c event playAllowed) = Next s' ∧
    one_sink_bound_to t s' ∧
    oplog s' = oplog s ++ release_ops (audioRef s) ++ bind_ops (length (audios s)) t ∧
    calls s' = calls s.
Proof.
  intros Hinv Hin Hremote.
  destruct (on_track_started_remote s event playAllowed t Hinv Hremote)
    as (s' & Hrun' & Hone & Hlog & Hcalls).
  exists s'. unfold step. cbn [occurs handler]. rewrite Hin, Hrun'. done.
Qed.

(** After a run of remote audio tracks on one call, the sink that is left
    plays the last of them. *)
Lemma track_started_sequence (s : State) (c : nat) (tracks : list nat) (last : nat) :
  sink_inv s →
  call_in [ms_joined] c s = true →
  ∃ s',
    run s (map (λ n, track_started c (remote_track n) true) (tracks ++ [last])) = Some s' ∧
    one_sink_bound_to {| kind := "audio"; trackId := last |} s'.
Proof.
  revert s. induction tracks as [|n rest IH]; intros s Hinv Hin; cbn [app map run].
  - destruct (track_started_step s c (remote_track last) true
                {| kind := "audio"; trackId := last |} Hinv Hin eq_refl)
      as (s' & -> & Hone & _).
    by exists s'.
  - destruct (track_started_step s c (remote_track n) true
                {| kind := "audio"; trackId := n |} Hinv Hin eq_refl)
      as (s1 & Hstep & Hone & _ & Hcalls).
    rewrite Hstep. apply IH; [by eapply one_sink_inv|].
    unfold call_in in *. by rewrite Hcalls.
Qed.

(** C7. Whatever happened before, when a remote audio track starts on a
    joined call the callback runs to completion and leaves exactly one
    sink alive, the one [audioRef] points to, bound to that track; the
    sink it found, if any, is paused and detached before the new one is
    constructed, as the order of the calls shows. *)
Theorem track_started_single_sink (events : list Event) (s : State) (c : nat)
    (event : TrackEvent) (playAllowed : bool) (t : MediaStreamTrack) :
  run init events = Some s →
  call_in [ms_joined] c s = true →
  remote_audio event = Some t →
  ∃ s',
    step s (track_started c event playAllowed) = Next s' ∧
    one_sink_bound_to t s' ∧
    oplog s' = oplog s ++ release_ops (audioRef s) ++ bind_ops (length (audios s)) t.
Proof.
  intros Hrun Hin Hremote.
  assert (Hinv : sink_inv s) by (apply reachable_sink_inv; by exists events).
  destruct (track_started_step s c event playAllowed t Hinv Hin Hremote)
    as (s' & Hstep & Hone & Hlog & _).
  by exists s'.
Qed.

Lemma track_started_single_sink_witness :
  ∃ s',
    step live_with_sink (track_started 0 (remote_track 8) true) = Next s' ∧
    one_sink_bound_to {| kind := "audio"; trackId := 8 |} s' ∧
    oplog s' = oplog live_with_sink ++ release_ops (Some 0) ++
               bind_ops 1 {| kind := "audio"; trackId := 8 |}.
Proof.
  apply (track_started_single_sink
           (go_live ++ [track_started 0 (remote_track 7) true]) live_with_sink 0
           (remote_track 8) true {| kind := "audio"; trackId := 8 |});
    reflexivity.
Defined.



(** ** One call object at a time *)

Lemma call_in_true (states : list MeetingState) (c : nat) (s : State) :
  call_in states c s = true →
  ∃ call, calls s !! c = Some call ∧ destroyed call = false ∧ meetingState call ∈ states.
Proof.
  unfold call_in. destruct (calls s !! c) as [call|]; [|done].
  intros [Hd Hm]%andb_prop. exists call.
  apply negb_true_iff in Hd. apply bool_decide_eq_true in Hm. done.
Qed.

Lemma forallb_destroyed (l : list DailyCall) :
  forallb destroyed l = true ↔ ∀ c call, l !! c = Some call → destroyed call = true.
Proof.
  rewrite forallb_forall. split.
  - intros Hall c call Hc. apply Hall, list_elem_of_In. by eapply list_elem_of_lookup_2.
  - intros Hall call [c Hc]%list_elem_of_In%list_elem_of_lookup_1. by eapply Hall.
Qed.

(** An update that revives no call object keeps them one at a time. *)
Lemma one_at_a_time_alter (f : DailyCall → DailyCall) (c : nat) (l : list DailyCall) :
  (∀ call, destroyed (f call) = false → destroyed call = false) →
  one_at_a_time l → one_at_a_time (alter f c l).
Proof.
  intros Hf Hone c1 c2 call1 call2 H1 H2 Hd1 Hd2.
  assert (Hback : ∀ c' call', alter f c l !! c' = Some call' → destroyed call' = false →
                    ∃ call0, l !! c' = Some call0 ∧ destroyed call0 = false).
  { intros c' call' Hlook Hd. rewrite list_lookup_alter in Hlook.
    case_decide; [|by eauto]. subst.
    apply fmap_Some in Hlook as (call0 & Hcall0 & ->). eauto. }
  destruct (Hback _ _ H1 Hd1) as (call1' & H1' & Hd1').
  destruct (Hback _ _ H2 Hd2) as (call2' & H2' & Hd2').
  by eapply Hone.
Qed.

Lemma fresh_of_quiet (s : State) :
  one_at_a_time (calls s) → quiet s → fresh_inv s.
Proof. intros Hone Hq. split; [done|]. split; intros; done. Qed.

(** With a call object that is past joining, nothing is asked of the
    transcript. *)
Lemma fresh_of_settled (s : State) (c : nat) (call : DailyCall) :
  one_at_a_time (calls s) →
  calls s !! c = Some call → destroyed call = false →
  meetingState call ≠ ms_new → meetingState call ≠ ms_joining →
  fresh_inv s.
Proof.
  intros Hone Hc Hd Hnew Hjoining. split; [done|]. split.
  - intros Hall. specialize (Hall c call Hc). congruence.
  - intros c' call' Hc' Hd' Hearly.
    assert (c' = c) as -> by (by eapply Hone). simplify_eq.
    destruct Hearly; done.
Qed.

(** Turns that keep every call object's meeting state and [destroyed]
    flag, and the transcript if it was cleared. *)
Lemma fresh_inv_frame (s s' : State) :
  fresh_inv s →
  (∀ c, (λ call, (destroyed call, meetingState call)) <$> calls s' !! c
        = (λ call, (destroyed call, meetingState call)) <$> calls s !! c) →
  (quiet s → quiet s') →
  fresh_inv s'.
Proof.
  intros (Hone & Hnone & Hearly) Hshape Hq.
  assert (Hback : ∀ c call', calls s' !! c = Some call' →
                    ∃ call, calls s !! c = Some call ∧ destroyed call = destroyed call' ∧
                            meetingState call = meetingState call').
  { intros c call' Hc. specialize (Hshape c). rewrite Hc in Hshape. cbn in Hshape.
    destruct (calls s !! c) as [call|]; [|done]. cbn in Hshape.
    exists call. by simplify_eq. }
  assert (Hforth : ∀ c call, calls s !! c = Some call →
                    ∃ call', calls s' !! c = Some call' ∧ destroyed call = destroyed call' ∧
                             meetingState call = meetingState call').
  { intros c call Hc. specialize (Hshape c). rewrite Hc in Hshape. cbn in Hshape.
    destruct (calls s' !! c) as [call'|]; [|done]. cbn in Hshape.
    exists call'. by simplify_eq. }
  split; [|split].
  - intros c1 c2 call1 call2 H1 H2 Hd1 Hd2.
    destruct (Hback _ _ H1) as (call1' & H1' & Hd1' & _).
    destruct (Hback _ _ H2) as (call2' & H2' & Hd2' & _).
    eapply Hone; [done|done|congruence|congruence].
  - intros Hall. apply Hq, Hnone. intros c call Hc.
    destruct (Hforth _ _ Hc) as (call' & Hc' & Hd & _).
    rewrite Hd. by eapply Hall.
  - intros c call' Hc' Hd' Hm.
    destruct (Hback _ _ Hc') as (call & Hc & Hd & Hms).
    apply Hq. eapply (Hearly c call); [done|congruence|]. by rewrite Hms.
Qed.

Lemma fresh_inv_same_calls (s s' : State) :
  fresh_inv s → calls s' = calls s → (quiet s → quiet s') → fresh_inv s'.
Proof. intros Hinv Hcalls. apply fresh_inv_frame; [done|]. by rewrite Hcalls. Qed.

Lemma fresh_inv_flag (s s' : State) (c : nat) (b : bool) :
  fresh_inv s →
  calls s' = alter (set_localAudioEnabled b) c (calls s) →
  (quiet s → quiet s') →
  fresh_inv s'.
Proof.
  intros Hinv Hcalls. apply fresh_inv_frame; [done|].
  intros c'. rewrite Hcalls, list_lookup_alter.
  case_decide; [|done]. subst. by destruct (calls s !! c').
Qed.

(** The handler of application messages writes no call object. *)
Lemma on_app_message_calls (data : jsval) (s s' : State) :
  on_app_message data s = Ok tt s' → calls s' = calls s.
Proof.
  unfold on_app_message.
  destruct data as [| |b|n|str|items|fields]; cbn; try (by intros [= <-]).
  - destruct b; by intros [= <-].
  - destruct (n =? 0)%Z; by intros [= <-].
  - destruct (String.eqb str ""); by intros [= <-].
  - unfold_turn. cbn. repeat case_match; intros; by simplify_eq.
Qed.

Lemma step_fresh_inv (s s' : State) (e : Event) :
  fresh_inv s → step s e = Next s' → fresh_inv s'.
Proof.
  intros Hinv Hstep.
  destruct e as [ | | |id|r|c|c|c|c|c event playAllowed|c data|c enabled|c|c].
  - (* connect *)
    revert Hstep. unfold_turn. cbn.
    destruct (connectionState s); cbn; intros [= <-];
      (eapply fresh_inv_same_calls; [done|done|done]).
  - (* hang-up is pressed *)
    revert Hstep. unfold_turn. cbn.
    destruct (audioRef s); cbn; destruct (callRef s); cbn; intros [= <-];
      (eapply fresh_inv_same_calls; [done|done|done]).
  - (* mute *)
    revert Hstep. unfold_turn. cbn.
    destruct (callRef s) as [c|]; cbn; [|by intros [= <-]].
    destruct (calls s !! c); cbn; [|done].
    intros [= <-]. by eapply fresh_inv_flag.
  - (* a character is picked *)
    revert Hstep. unfold_turn. cbn.
    repeat case_match; intros; simplify_eq; by eapply fresh_inv_same_calls.
  - (* the request settles *)
    revert Hstep. unfold_turn. cbn.
    destruct (pendingFetch s) as [|n]; [done|].
    destruct r; cbn; [|intros [= <-]; by eapply fresh_inv_same_calls].
    destruct (forallb destroyed (calls s)) eqn:Hall; cbn;
      [|intros [= <-]; by eapply fresh_inv_same_calls].
    pose proof (proj1 (forallb_destroyed _) Hall) as Hall'. clear Hall. rename Hall' into Hall.
    destruct Hinv as (Hone & Hnone & Hearly). specialize (Hnone Hall).
    intros [= <-]. apply fresh_of_quiet; [|done]. cbn.
    apply one_at_a_time_alter; [done|].
    assert (Hlast : ∀ c call, (calls s ++ [{| localAudioEnabled := true; meetingState := ms_new;
                                             destroyed := false |}]) !! c = Some call →
                      destroyed call = false → c = length (calls s)).
    { intros c call [[_ Hc] | [-> _]]%lookup_snoc_Some Hd; [|done].
      specialize (Hall _ _ Hc). congruence. }
    intros c1 c2 call1 call2 H1 H2 Hd1 Hd2.
    rewrite (Hlast _ _ H1 Hd1), (Hlast _ _ H2 Hd2). done.
  - (* the join is rejected *)
    revert Hstep. unfold_turn. cbn. destruct (call_in _ c s) eqn:Hin; [|done].
    apply call_in_true in Hin as (call & Hc & Hd & Hm%list_elem_of_singleton).
    destruct Hinv as (Hone & Hnone & Hearly).
    intros [= <-]. apply fresh_of_quiet; cbn.
    + by apply one_at_a_time_alter.
    + eapply (Hearly c call); auto.
  - (* joined *)
    revert Hstep. unfold_turn. cbn. destruct (call_in _ c s) eqn:Hin; [|done].
    apply call_in_true in Hin as (call & Hc & Hd & Hm%list_elem_of_singleton).
    destruct Hinv as (Hone & Hnone & Hearly).
    intros [= <-]. apply fresh_of_quiet; cbn.
    + by apply one_at_a_time_alter.
    + eapply (Hearly c call); auto.
  - (* left *)
    revert Hstep. unfold_turn. cbn. destruct (call_in _ c s) eqn:Hin; [|done].
    destruct Hinv as (Hone & Hnone & Hearly).
    intros [= <-]. apply fresh_of_quiet; cbn; [|done].
    by apply one_at_a_time_alter.
  - (* error *)
    revert Hstep. unfold_turn. cbn. destruct (call_in _ c s) eqn:Hin; [|done].
    apply call_in_true in Hin as (call & Hc & Hd & Hm).
    destruct Hinv as (Hone & Hnone & Hearly).
    intros [= <-].
    eapply (fresh_of_settled _ c (set_meetingState ms_error call)); cbn; try done.
    + by apply one_at_a_time_alter.
    + by rewrite list_lookup_alter_eq, Hc.
  - (* a track starts *)
    revert Hstep. unfold step. cbn [occurs handler].
    destruct (call_in _ c s); [|done].
    unfold on_track_started. destruct (remote_audio event) as [t|].
    + unfold_turn. cbn.
      destruct (audioRef s); cbn; destruct playAllowed; cbn; intros [= <-];
        by eapply fresh_inv_same_calls.
    + intros [= <-]. done.
  - (* a message *)
    revert Hstep. unfold step. cbn [occurs handler].
    destruct (call_in _ c s) eqn:Hin; [|done].
    apply call_in_true in Hin as (call & Hc & Hd & Hm%list_elem_of_singleton).
    destruct (on_app_message data s) as [[] s2|] eqn:Hmsg; [|done].
    apply on_app_message_calls in Hmsg.
    destruct Hinv as (Hone & Hnone & Hearly).
    intros [= <-].
    eapply (fresh_of_settled _ c call); rewrite ?Hmsg; try done; congruence.
  - (* the microphone changes *)
    revert Hstep. unfold_turn. cbn. destruct (call_in _ c s); [|done].
    intros [= <-]. by eapply fresh_inv_flag.
  - (* the leave settles *)
    revert Hstep. unfold_turn. cbn.
    destruct (bool_decide _ && _); [|done]. cbn.
    destruct (callRef s); cbn; intros [= <-]; by eapply fresh_inv_same_calls.
  - (* the destroy settles *)
    revert Hstep. unfold_turn. cbn.
    destruct (bool_decide _); [|done]. cbn.
    destruct Hinv as (Hone & Hnone & Hearly).
    intros [= <-]. apply fresh_of_quiet; cbn; [|done].
    by apply one_at_a_time_alter.
Qed.

Lemma run_fresh_inv (events : list Event) (s s' : State) :
  fresh_inv s → run s events = Some s' → fresh_inv s'.
Proof.
  revert s. induction events as [|e rest IH]; intros s Hinv; cbn.
  - by intros [= <-].
  - destruct (step s e) as [s1| |] eqn:Hstep; [|done..].
    apply IH. by eapply step_fresh_inv.
Qed.

Lemma run_init_fresh_inv (events : list Event) (s : State) :
  run init events = Some s → fresh_inv s.
Proof. apply run_fresh_inv. apply fresh_of_quiet; [|done]. by intros c c' call call' ?. Qed.

(** ** Leaving and stopping *)

(** The [left-meeting] callback resets the agent state and clears the
    transcript. *)
Lemma left_meeting_resets (s : State) (c : nat) :
  call_in [ms_joining; ms_joined] c s = true →
  ∃ s',
    step s (left_meeting c) = Next s' ∧
    connectionState s' = ConnectionState.idle ∧ agentState s' = AgentState.idle ∧
    transcript s' = JStr "" ∧ transcriptRole s' = JStr "".
Proof.
  intros Hin. unfold_turn. rewrite Hin. cbn.
  eexists. split; [reflexivity|]. done.
Qed.

(** A disconnect resets the agent state and clears the transcript in its
    last turn: at once when there is no session, else when the
    [destroy()] it awaits has settled; the session reference is null from
    then on. *)
Lemma disconnect_resets (s s' : State) (e : Event) :
  (e = disconnect_intent ∧ callRef s = None) ∨ (∃ c, e = destroy_settled c) →
  step s e = Next s' →
  connectionState s' = ConnectionState.idle ∧ agentState s' = AgentState.idle ∧
  transcript s' = JStr "" ∧ transcriptRole s' = JStr "" ∧ callRef s' = None.
Proof.
  intros [[-> Href] | [c ->]]; unfold_turn; cbn.
  - destruct (audioRef s); cbn; rewrite Href; cbn; by intros [= <-].
  - destruct (bool_decide _); [|done]. by intros [= <-].
Qed.

(** With the session already made (the join is in flight), a disconnect
    during [connecting] does tear it down. *)
Example disconnect_while_joining :
  hang_up joining = [disconnect_intent; left_meeting 0; leave_settled 0; destroy_settled 0] ∧
  run init ([connect_intent; fetch_settled (FetchOk "wss://x" "t1")] ++ hang_up joining)
  = Some {| connectionState := ConnectionState.idle;
            agentState := AgentState.idle;
            isMuted := false;
            transcript := JStr "";
            transcriptRole := JStr "";
            selectedCharacter := "bugs";
            callRef := None;
            audioRef := None;
            calls := [{| localAudioEnabled := true; meetingState := ms_left; destroyed := true |}];
            audios := [];
            pendingFetch := 0;
            leaving := [];
            destroying := [];
            oplog := [OpFetch "bugs"; OpCreateCallObject 0; OpJoin 0 "wss://x" "t1";
                      OpLeave 0; OpDestroy 0] |}.
Proof. vm_compute. split; reflexivity. Qed.

(** C1, on the code. A disconnect issued while the provisioning request is
    still in flight finds no session to tear down and only resets the
    observable values; when the request then succeeds, the suspended
    [connect] goes on to create and join the call, and [joined-meeting]
    leaves the controller [connected] with a live session that was never
    left or destroyed. *)
Theorem disconnect_during_provisioning_goes_live :
  run init [connect_intent; disconnect_intent]
  = Some (with_pendingFetch 1 (with_oplog [OpFetch "bugs"] init)) ∧
  run init [connect_intent; disconnect_intent;
            fetch_settled (FetchOk "wss://x" "t1"); joined_meeting 0]
  = Some {| connectionState := ConnectionState.connected;
            agentState := AgentState.idle;
            isMuted := false;
            transcript := JStr "";
            transcriptRole := JStr "";
            selectedCharacter := "bugs";
            callRef := Some 0;
            audioRef := None;
            calls := [{| localAudioEnabled := true; meetingState := ms_joined; destroyed := false |}];
            audios := [];
            pendingFetch := 0;
            leaving := [];
            destroying := [];
            oplog := [OpFetch "bugs"; OpCreateCallObject 0; OpJoin 0 "wss://x" "t1"] |}.
Proof. vm_compute. split; reflexivity. Qed.

(** C2, on the code. A fatal transport error while the agent is speaking
    leaves [agentState] at [speaking] with [connectionState] at [error];
    the retry that follows is [connecting] with the agent still
    [speaking]. *)
Theorem transport_error_keeps_agentState :
  ((λ s, (connectionState s, agentState s)) <$>
     run init (go_live ++ [app_message 0 (msg_status "tts"); transport_error 0]))
    = Some (ConnectionState.error, AgentState.speaking) ∧
  ((λ s, (connectionState s, agentState s)) <$>
     run init (go_live ++ [app_message 0 (msg_status "tts"); transport_error 0; connect_intent]))
    = Some (ConnectionState.connecting, AgentState.speaking).
Proof. vm_compute. split; reflexivity. Qed.

(** The ['error'] callback itself clears nothing: the transcript stays
    through the error and through the retry, which the call object left
    behind makes fail. *)
Example transport_error_keeps_transcript :
  ((λ s, (connectionState s, transcript s, transcriptRole s)) <$>
     run init (go_live ++ [app_message 0 (msg_transcript "hello" "user"); transport_error 0]))
    = Some (ConnectionState.error, JStr "hello", JStr "user") ∧
  ((λ s, (connectionState s, transcript s, transcriptRole s, length (calls s))) <$>
     run init retry_after_error)
    = Some (ConnectionState.error, JStr "hello", JStr "user", 1) ∧
  step (default init (run init retry_after_error)) (joined_meeting 1) = Impossible.
Proof. vm_compute. repeat split. Qed.

(** [connected] is entered by ['joined-meeting'] and by nothing else. *)
Lemma enters_connected (s s' : State) (e : Event) :
  step s e = Next s' →
  connectionState s ≠ ConnectionState.connected →
  connectionState s' = ConnectionState.connected →
  ∃ c, e = joined_meeting c ∧ call_in [ms_joining] c s = true.
Proof.
  intros Hstep Hbefore Hafter.
  destruct e as [ | | |id|r|c|c|c|c|c event playAllowed|c data|c enabled|c|c].
  7: { exists c. split; [done|]. revert Hstep. unfold step. cbn [occurs].
       by destruct (call_in _ c s). }
  all: exfalso; revert Hstep Hafter; unfold step; cbn [handler].
  all: destruct (occurs _ s) as [s1|] eqn:Hocc; [|done].
  all: assert (connectionState s1 = connectionState s) as Hcs
         by (unfold occurs, move_call in Hocc; repeat case_match; by simplify_eq).
  all: rewrite <- Hcs in Hbefore; clear Hocc Hcs; revert Hbefore.
  all: unfold_turn; cbn.
  10: destruct data; cbn.
  all: repeat case_match; intros; simplify_eq; cbn in *; congruence.
Qed.

(** A call object that is joining has a cleared transcript behind it, so
    ['joined-meeting'] enters [connected] with the transcript cleared. *)
Lemma joined_meeting_quiet (events : list Event) (s : State) (c : nat) :
  run init events = Some s →
  call_in [ms_joining] c s = true →
  quiet s ∧
  ∃ s',
    step s (joined_meeting c) = Next s' ∧
    connectionState s' = ConnectionState.connected ∧
    agentState s' = AgentState.idle ∧
    quiet s'.
Proof.
  intros Hrun Hin.
  destruct (run_init_fresh_inv events s Hrun) as (_ & _ & Hearly).
  destruct (call_in_true _ _ _ Hin) as (call & Hc & Hd & Hm%list_elem_of_singleton).
  assert (Hq : quiet s) by (eapply (Hearly c call); auto).
  split; [done|].
  destruct (joined_sets_connected s c Hin) as (s' & Hstep & Hcs & Ha & Ht & Hr).
  exists s'. do 3 (split; [done|]). unfold quiet. rewrite Ht, Hr. done.
Qed.

(** C4. After any run, whenever a turn takes [connectionState] into
    [connected] the transcript and its role are empty, before the turn
    and after it.  So whichever way the controller left [connected]
    (['left-meeting'], a disconnect or a transport error), the transcript
    has been cleared by the time the next [connected] begins. *)
Theorem connected_begins_cleared (events : list Event) (s s' : State) (e : Event) :
  run init events = Some s →
  step s e = Next s' →
  connectionState s ≠ ConnectionState.connected →
  connectionState s' = ConnectionState.connected →
  transcript s = JStr "" ∧ transcriptRole s = JStr "" ∧
  transcript s' = JStr "" ∧ transcriptRole s' = JStr "".
Proof.
  intros Hrun Hstep Hbefore Hafter.
  destruct (enters_connected s s' e Hstep Hbefore Hafter) as (c & -> & Hin).
  destruct (joined_meeting_quiet events s c Hrun Hin) as ([Ht Hr] & s2 & Hstep2 & _ & _ & [Ht' Hr']).
  rewrite Hstep in Hstep2. injection Hstep2 as <-. done.
Qed.

(** A call with a transcript on screen, hung up, and the next call up to
    the point where it is about to join. *)
Lemma connected_begins_cleared_witness :
  ∃ s s',
    run init (go_live ++ [app_message 0 (msg_transcript "hello" "user")] ++
              [disconnect_intent; left_meeting 0; leave_settled 0; destroy_settled 0] ++
              [connect_intent; fetch_settled (FetchOk "wss://y" "t2")]) = Some s ∧
    step s (joined_meeting 1) = Next s' ∧
    transcript s = JStr "" ∧ transcriptRole s = JStr "" ∧
    transcript s' = JStr "" ∧ transcriptRole s' = JStr "".
Proof.
  eexists _, _. split; [vm_compute; reflexivity|]. split; [vm_compute; reflexivity|].
  eapply (connected_begins_cleared
            (go_live ++ [app_message 0 (msg_transcript "hello" "user")] ++
             [disconnect_intent; left_meeting 0; leave_settled 0; destroy_settled 0] ++
             [connect_intent; fetch_settled (FetchOk "wss://y" "t2")])
            _ _ (joined_meeting 1)).
  - vm_compute. reflexivity.
  - vm_compute. reflexivity.
  - vm_compute. discriminate.
  - vm_compute. reflexivity.
Defined.

(** C5. After any run, on ['joined-meeting'] while [connecting] the
    controller moves to [connected] with [agentState] at [idle] and the
    transcript and its role empty. *)
Theorem joined_enters_connected (events : list Event) (s : State) (c : nat) :
  run init events = Some s →
  connectionState s = ConnectionState.connecting →
  call_in [ms_joining] c s = true →
  ∃ s',
    step s (joined_meeting c) = Next s' ∧
    connectionState s' = ConnectionState.connected ∧
    agentState s' = AgentState.idle ∧
    transcript s' = JStr "" ∧ transcriptRole s' = JStr "".
Proof.
  intros Hrun _ Hin.
  destruct (joined_meeting_quiet events s c Hrun Hin) as (_ & s' & Hstep & Hcs & Ha & [Ht Hr]).
  by exists s'.
Qed.

Lemma joined_enters_connected_witness :
  ∃ s',
    step joining (joined_meeting 0) = Next s' ∧
    connectionState s' = ConnectionState.connected ∧
    agentState s' = AgentState.idle ∧
    transcript s' = JStr "" ∧ transcriptRole s' = JStr "".
Proof.
  apply (joined_enters_connected (take 2 go_live) joining 0); reflexivity.
Defined.

(** * Further properties of the component *)

(** ** A disconnect, turn by turn *)

Lemma run_init_ref_valid (events : list Event) (s : State) :
  run init events = Some s → ref_valid s.
Proof. intros Hrun. eapply run_ref_valid; [|done]. intros c. done. Qed.

(** The click on hang-up with a session: the referenced sink is stopped,
    detached and dropped, [leave()] is called on the referenced call
    object and [disconnect] waits for it; nothing else changes. *)
Lemma disconnect_click (s : State) (c : nat) :
  sink_inv s →
  callRef s = Some c →
  ∃ s1,
    step s disconnect_intent = Next s1 ∧
    audioRef s1 = None ∧ (∀ a el, audios s1 !! a = Some el → alive el = false) ∧
    callRef s1 = Some c ∧ calls s1 = calls s ∧
    leaving s1 = leaving s ++ [c] ∧ destroying s1 = destroying s ∧
    oplog s1 = oplog s ++ release_ops (audioRef s) ++ [OpLeave c] ∧
    connectionState s1 = connectionState s ∧ agentState s1 = agentState s ∧
    isMuted s1 = isMuted s ∧ transcript s1 = transcript s ∧
    transcriptRole s1 = transcriptRole s ∧ selectedCharacter s1 = selectedCharacter s ∧
    pendingFetch s1 = pendingFetch s.
Proof.
  intros Hinv Href. unfold_turn. cbn.
  destruct (audioRef s) as [old|] eqn:Hold; cbn; rewrite Href; cbn.
  - eexists. split; [reflexivity|]. cbn. split; [done|].
    split; [intros a el; by apply released_not_alive|].
    do 4 (split; [done|]). split; [by rewrite <- !app_assoc|]. done.
  - eexists. split; [reflexivity|]. cbn. split; [done|].
    split; [intros a el; by apply no_ref_not_alive|]. done.
Qed.

(** The click on hang-up with no session runs [disconnect] to its end. *)
Lemma disconnect_click_no_session (s : State) :
  sink_inv s →
  callRef s = None →
  ∃ s1,
    step s disconnect_intent = Next s1 ∧
    audioRef s1 = None ∧ (∀ a el, audios s1 !! a = Some el → alive el = false) ∧
    callRef s1 = None ∧ calls s1 = calls s ∧
    oplog s1 = oplog s ++ release_ops (audioRef s) ∧
    connectionState s1 = ConnectionState.idle ∧ agentState s1 = AgentState.idle ∧
    transcript s1 = JStr "" ∧ transcriptRole s1 = JStr "".
Proof.
  intros Hinv Href. unfold_turn. cbn.
  destruct (audioRef s) as [old|] eqn:Hold; cbn; rewrite Href; cbn.
  - eexists. split; [reflexivity|]. cbn. split; [done|].
    split; [intros a el; by apply released_not_alive|].
    do 2 (split; [done|]). split; [by rewrite <- !app_assoc|]. done.
  - eexists. split; [reflexivity|]. cbn. split; [done|].
    split; [intros a el; by apply no_ref_not_alive|].
    do 2 (split; [done|]). split; [by rewrite app_nil_r|]. done.
Qed.

Lemma left_meeting_exact (s : State) (c : nat) :
  call_in [ms_joining; ms_joined] c s = true →
  step s (left_meeting c)
  = Next (with_transcriptRole (JStr "")
            (with_transcript (JStr "")
               (with_agentState AgentState.idle
                  (with_connectionState ConnectionState.idle
                     (move_call c (set_meetingState ms_left) s))))).
Proof. intros Hin. unfold step. cbn [occurs]. rewrite Hin. reflexivity. Qed.

(** The [leave()] settles: [destroy()] is called on the call object the
    reference points to now, and [disconnect] waits for it. *)
Lemma leave_settled_exact (s : State) (c c' : nat) :
  c ∈ leaving s →
  call_in [ms_joining; ms_joined] c s = false →
  callRef s = Some c' →
  step s (leave_settled c)
  = Next (with_destroying (destroying s ++ [c'])
            (with_oplog (oplog s ++ [OpDestroy c'])
               (with_leaving (remove_first c (leaving s)) s))).
Proof.
  intros Hc Hin Href. unfold step. cbn [occurs].
  rewrite bool_decide_true, Hin by done. cbn.
  unfold disconnect_after_leave. unfold_turn. cbn. rewrite Href. reflexivity.
Qed.

(** The [leave()] settles with the reference cleared meanwhile: the call
    on [null] throws and the rest of [disconnect] never runs. *)
Lemma leave_settled_dangling (s : State) (c : nat) :
  c ∈ leaving s →
  call_in [ms_joining; ms_joined] c s = false →
  callRef s = None →
  step s (leave_settled c) = Next (with_leaving (remove_first c (leaving s)) s).
Proof.
  intros Hc Hin Href. unfold step. cbn [occurs].
  rewrite bool_decide_true, Hin by done. cbn.
  unfold disconnect_after_leave. unfold_turn. cbn. rewrite Href. reflexivity.
Qed.

(** The [destroy()] settles: the reference is cleared and the four
    setters run. *)
Lemma destroy_settled_exact (s : State) (c : nat) :
  c ∈ destroying s →
  step s (destroy_settled c)
  = Next (with_transcriptRole (JStr "")
            (with_transcript (JStr "")
               (with_agentState AgentState.idle
                  (with_connectionState ConnectionState.idle
                     (with_callRef None
                        (with_destroying (remove_first c (destroying s))
                           (move_call c set_destroyed s))))))).
Proof.
  intros Hc. unfold step. cbn [occurs]. rewrite bool_decide_true by done. reflexivity.
Qed.

Lemma left_not_in_meeting (c : nat) (l : list DailyCall) (s : State) :
  calls s = alter (set_meetingState ms_left) c l →
  call_in [ms_joining; ms_joined] c s = false.
Proof.
  intros Hcalls. unfold call_in. rewrite Hcalls, list_lookup_alter_eq.
  destruct (l !! c) as [call|]; [|done]. cbn.
  rewrite bool_decide_false; [by rewrite andb_false_r|].
  intros Hin. apply list_elem_of_In in Hin. cbn in Hin. intuition discriminate.
Qed.

(** An uninterrupted disconnect, as a whole. *)
Lemma hang_up_run (s : State) :
  sink_inv s →
  ∃ s',
    run s (hang_up s) = Some s' ∧
    audioRef s' = None ∧ (∀ a el, audios s' !! a = Some el → alive el = false) ∧
    callRef s' = None ∧
    (∀ c, callRef s = Some c →
       ∀ call, calls s !! c = Some call →
         ∃ call', calls s' !! c = Some call' ∧ destroyed call' = true) ∧
    oplog s' = oplog s ++ release_ops (audioRef s) ++
               match callRef s with
               | Some c => [OpLeave c; OpDestroy c]
               | None => []
               end ∧
    connectionState s' = ConnectionState.idle ∧ agentState s' = AgentState.idle ∧
    transcript s' = JStr "" ∧ transcriptRole s' = JStr "".
Proof.
  intros Hinv. unfold hang_up.
  destruct (callRef s) as [c|] eqn:Href.
  - destruct (disconnect_click s c Hinv Href)
      as (s1 & Hstep1 & Ha1 & Hdead1 & Href1 & Hcalls1 & Hleaving1 & Hdestroying1 & Hlog1 & _).
    cbn [app run]. rewrite Hstep1.
    assert (Hsame : call_in [ms_joining; ms_joined] c s1 = call_in [ms_joining; ms_joined] c s)
      by (unfold call_in; by rewrite Hcalls1).
    destruct (call_in [ms_joining; ms_joined] c s) eqn:Hin; cbn [app run].
    + rewrite (left_meeting_exact s1 c Hsame).
      set (s2 := with_transcriptRole _ _).
      rewrite (leave_settled_exact s2 c c);
        [|unfold s2; cbn; rewrite Hleaving1, elem_of_app, list_elem_of_singleton; by right
         |by apply (left_not_in_meeting c (calls s1))
         |done].
      set (s3 := with_destroying _ _).
      rewrite (destroy_settled_exact s3 c);
        [|unfold s3; cbn; rewrite elem_of_app, list_elem_of_singleton; by right].
      eexists. split; [reflexivity|]. cbn.
      do 3 (split; [done|]). split.
      * intros c0 [= <-] call Hcall. rewrite Hcalls1, !list_lookup_alter_eq, Hcall. cbn.
        by eexists.
      * split; [|done]. rewrite Hlog1, <- !app_assoc. done.
    + rewrite (leave_settled_exact s1 c c);
        [|rewrite Hleaving1, elem_of_app, list_elem_of_singleton; by right|done|done].
      set (s3 := with_destroying _ _).
      rewrite (destroy_settled_exact s3 c);
        [|unfold s3; cbn; rewrite elem_of_app, list_elem_of_singleton; by right].
      eexists. split; [reflexivity|]. cbn.
      do 3 (split; [done|]). split.
      * intros c0 [= <-] call Hcall. rewrite Hcalls1, !list_lookup_alter_eq, Hcall. cbn.
        by eexists.
      * split; [|done]. rewrite Hlog1, <- !app_assoc. done.
  - destruct (disconnect_click_no_session s Hinv Href)
      as (s1 & Hstep1 & Ha1 & Hdead1 & Href1 & Hcalls1 & Hlog1 & Hrest).
    cbn [run]. rewrite Hstep1. exists s1.
    do 4 (split; [done|]). split; [done|]. split; [by rewrite Hlog1, app_nil_r|]. done.
Qed.

Lemma disconnect_when_cleared (s : State) :
  audioRef s = None → callRef s = None →
  connectionState s = ConnectionState.idle → agentState s = AgentState.idle →
  transcript s = JStr "" → transcriptRole s = JStr "" →
  step s disconnect_intent = Next s.
Proof.
  destruct s. cbn. intros -> -> -> -> -> ->. reflexivity.
Qed.

(** ** Teardown *)

(** X1. After any run, a disconnect that nothing interrupts (the click,
    the [left-meeting] its [leave()] brings about, the two settlings) runs
    to its end and leaves nothing behind: no audio element is bound or
    playing, both references are cleared, [leave()] then [destroy()] were
    called on the call object that was referenced and it is destroyed, and
    the four observable values are back to their initial ones. *)
Theorem disconnect_releases_everything (events : list Event) (s : State) :
  run init events = Some s →
  ∃ s',
    run s (hang_up s) = Some s' ∧
    (∀ a el, audios s' !! a = Some el → alive el = false) ∧
    audioRef s' = None ∧ callRef s' = None ∧
    (∀ c, callRef s = Some c →
       ∃ call', calls s' !! c = Some call' ∧ destroyed call' = true) ∧
    oplog s' = oplog s ++ release_ops (audioRef s) ++
               match callRef s with
               | Some c => [OpLeave c; OpDestroy c]
               | None => []
               end ∧
    connectionState s' = ConnectionState.idle ∧ agentState s' = AgentState.idle ∧
    transcript s' = JStr "" ∧ transcriptRole s' = JStr "".
Proof.
  intros Hrun.
  assert (Hinv : sink_inv s) by (apply reachable_sink_inv; by exists events).
  pose proof (run_init_ref_valid events s Hrun) as Hval.
  destruct (hang_up_run s Hinv) as (s' & Hrun' & Ha & Hdead & Href & Hcall & Hrest).
  exists s'. do 4 (split; [done|]). split; [|done].
  intros c Hc.
  destruct (lookup_lt_is_Some_2 (calls s) c (Hval c Hc)) as [call Hlook].
  by eapply Hcall.
Qed.

Lemma disconnect_releases_everything_witness :
  ∃ s',
    run live_with_sink [disconnect_intent; left_meeting 0; leave_settled 0; destroy_settled 0]
      = Some s' ∧
    (∀ a el, audios s' !! a = Some el → alive el = false) ∧
    audioRef s' = None ∧ callRef s' = None ∧
    (∀ c, callRef live_with_sink = Some c →
       ∃ call', calls s' !! c = Some call' ∧ destroyed call' = true) ∧
    oplog s' = oplog live_with_sink ++ [OpPause 0; OpSetSrcObject 0 None] ++
               [OpLeave 0; OpDestroy 0] ∧
    connectionState s' = ConnectionState.idle ∧ agentState s' = AgentState.idle ∧
    transcript s' = JStr "" ∧ transcriptRole s' = JStr "".
Proof.
  apply (disconnect_releases_everything
           (go_live ++ [track_started 0 (remote_track 7) true]) live_with_sink).
  reflexivity.
Defined.

(** A remote track that starts while the [leave()] of a disconnect is
    still pending gets a new sink, which the rest of the disconnect does
    not release: the call ends with that sink bound, playing and
    referenced. *)
Example track_during_disconnect :
  ((λ s, (connectionState s, callRef s, audioRef s, alive <$> audios s !! 1)) <$>
     run live_with_sink [disconnect_intent; track_started 0 (remote_track 8) true;
                         left_meeting 0; leave_settled 0; destroy_settled 0])
  = Some (ConnectionState.idle, None, Some 1, Some true).
Proof. vm_compute. reflexivity. Qed.

(** X2. After any run, a disconnect that follows a disconnect run to its
    end finds nothing to release: it is the click alone, and it changes
    nothing, the log of outside calls included. *)
Theorem disconnect_twice (events : list Event) (s : State) :
  run init events = Some s →
  ∃ s',
    run s (hang_up s) = Some s' ∧
    hang_up s' = [disconnect_intent] ∧
    run s' (hang_up s') = Some s'.
Proof.
  intros Hrun.
  assert (Hinv : sink_inv s) by (apply reachable_sink_inv; by exists events).
  destruct (hang_up_run s Hinv)
    as (s' & Hrun' & Ha & _ & Href & _ & _ & Hcs & Hag & Htr & Hro).
  exists s'. split; [done|].
  unfold hang_up. rewrite Href. split; [done|].
  cbn [run]. by rewrite disconnect_when_cleared.
Qed.

Lemma disconnect_twice_witness :
  ∃ s',
    run live_with_sink (hang_up live_with_sink) = Some s' ∧
    hang_up s' = [disconnect_intent] ∧
    run s' (hang_up s') = Some s'.
Proof.
  apply (disconnect_twice (go_live ++ [track_started 0 (remote_track 7) true]) live_with_sink).
  reflexivity.
Defined.

(** Hang-up pressed twice in a row: the button is still on screen after
    the first click, the second finds the reference still set and calls
    [leave()] on the same call object again. *)
Example disconnect_clicked_twice :
  ((λ s, (connectionState s, callRef s, leaving s, drop 3 (oplog s))) <$>
     run init (go_live ++ [disconnect_intent; disconnect_intent]))
  = Some (ConnectionState.connected, Some 0, [0; 0], [OpLeave 0; OpLeave 0]).
Proof. vm_compute. reflexivity. Qed.

(** The same, to the end: the first [disconnect] destroys the call object
    and clears the reference; the second, when its [leave()] settles,
    reads the reference again, finds [null] and throws, so it never calls
    [destroy()] nor runs its setters. *)
Example disconnect_clicked_twice_ends :
  ((λ s, (connectionState s, callRef s, leaving s, destroying s, drop 3 (oplog s))) <$>
     run init (go_live ++ [disconnect_intent; disconnect_intent; left_meeting 0;
                           leave_settled 0; destroy_settled 0; leave_settled 0]))
  = Some (ConnectionState.idle, None, [], [], [OpLeave 0; OpLeave 0; OpDestroy 0]).
Proof. vm_compute. reflexivity. Qed.

(** X4. After any run, the unmount cleanup that follows a disconnect run
    to its end finds both references cleared and does nothing. *)
Theorem cleanup_after_disconnect (events : list Event) (s : State) :
  run init events = Some s →
  ∃ s', run s (hang_up s) = Some s' ∧ perform s' unmount = Next s'.
Proof.
  intros Hrun.
  assert (Hinv : sink_inv s) by (apply reachable_sink_inv; by exists events).
  destruct (hang_up_run s Hinv) as (s' & Hrun' & Ha & _ & Href & _).
  exists s'. split; [done|].
  unfold perform, cleanup. unfold_turn. cbn. rewrite Ha. cbn. rewrite Href. reflexivity.
Qed.

Lemma cleanup_after_disconnect_witness :
  ∃ s', run live_with_sink (hang_up live_with_sink) = Some s' ∧ perform s' unmount = Next s'.
Proof.
  apply (cleanup_after_disconnect (go_live ++ [track_started 0 (remote_track 7) true])
           live_with_sink).
  reflexivity.
Defined.

(** X3. After any run the unmount cleanup completes; it stops and detaches
    the referenced sink, so that no audio element is left bound or
    playing, and calls [leave()] then [destroy()] on the referenced call
    object, and that is all it does: both references, the six state
    values, the call objects and what is suspended are as they were. *)
Theorem cleanup_releases (events : list Event) (s : State) :
  run init events = Some s →
  ∃ s',
    perform s unmount = Next s' ∧
    (∀ a el, audios s' !! a = Some el → alive el = false) ∧
    oplog s' = oplog s ++ release_ops (audioRef s) ++
               match callRef s with
               | Some c => [OpLeave c; OpDestroy c]
               | None => []
               end ∧
    audioRef s' = audioRef s ∧ callRef s' = callRef s ∧
    connectionState s' = connectionState s ∧ agentState s' = agentState s ∧
    isMuted s' = isMuted s ∧ transcript s' = transcript s ∧
    transcriptRole s' = transcriptRole s ∧ selectedCharacter s' = selectedCharacter s ∧
    calls s' = calls s ∧ length (audios s') = length (audios s) ∧
    pendingFetch s' = pendingFetch s ∧ leaving s' = leaving s ∧ destroying s' = destroying s.
Proof.
  intros Hrun.
  assert (Hinv : sink_inv s) by (apply reachable_sink_inv; by exists events).
  unfold perform, cleanup. unfold_turn. cbn.
  destruct (audioRef s) as [old|] eqn:Ha; cbn; destruct (callRef s) as [c0|] eqn:Hc; cbn.
  all: eexists; split; [reflexivity|]; cbn; rewrite ?Ha, ?Hc.
  all: split; [intros a el; first [by apply released_not_alive | by apply no_ref_not_alive]|].
  all: split; [by rewrite <- ?app_assoc, ?app_nil_r|].
  all: by rewrite ?length_alter.
Qed.

Lemma cleanup_releases_witness :
  ∃ s',
    perform live_with_sink unmount = Next s' ∧
    (∀ a el, audios s' !! a = Some el → alive el = false) ∧
    oplog s' = oplog live_with_sink ++ [OpPause 0; OpSetSrcObject 0 None] ++
               [OpLeave 0; OpDestroy 0] ∧
    audioRef s' = audioRef live_with_sink ∧ callRef s' = callRef live_with_sink ∧
    connectionState s' = connectionState live_with_sink ∧
    agentState s' = agentState live_with_sink ∧
    isMuted s' = isMuted live_with_sink ∧ transcript s' = transcript live_with_sink ∧
    transcriptRole s' = transcriptRole live_with_sink ∧
    selectedCharacter s' = selectedCharacter live_with_sink ∧
    calls s' = calls live_with_sink ∧
    length (audios s') = length (audios live_with_sink) ∧
    pendingFetch s' = pendingFetch live_with_sink ∧
    leaving s' = leaving live_with_sink ∧ destroying s' = destroying live_with_sink.
Proof.
  apply (cleanup_releases (go_live ++ [track_started 0 (remote_track 7) true]) live_with_sink).
  reflexivity.
Defined.

(** ** Tracks that are not the remote voice *)

(** X7. A [track-started] event that carries no track, a track that is not
    audio, no participant, or the local participant is ignored: nothing is
    paused, created or rebound. *)
Theorem track_started_ignored (s : State) (c : nat) (event : TrackEvent) (playAllowed : bool) :
  call_in [ms_joined] c s = true →
  track event = None ∨
  (∃ t, track event = Some t ∧ kind t ≠ "audio") ∨
  participant event = None ∨
  (∃ p, participant event = Some p ∧ local p = true) →
  step s (track_started c event playAllowed) = Next s.
Proof.
  intros Hin Hcases. unfold step. cbn [occurs handler]. rewrite Hin.
  assert (Hnone : remote_audio event = None).
  { unfold remote_audio.
    destruct (track event) as [t|] eqn:Ht; [|done].
    destruct (String.eqb_spec (kind t) "audio") as [Hk|Hk]; [|done].
    destruct (participant event) as [p|] eqn:Hp; [|done].
    destruct (local p) eqn:Hl; [done|]. exfalso.
    destruct Hcases as [?|[(t' & ? & ?)|[?|(p' & ? & ?)]]]; congruence. }
  unfold on_track_started. rewrite Hnone. reflexivity.
Qed.

Lemma track_started_ignored_witness :
  step live_with_sink
       (track_started 0 {| track := Some {| kind := "video"; trackId := 9 |};
                           participant := Some {| local := false |} |} true)
  = Next live_with_sink.
Proof.
  apply (track_started_ignored live_with_sink 0); [reflexivity|].
  right. left. eexists. split; [reflexivity|]. cbn. discriminate.
Defined.

(** ** One sink at any time *)

(** X6. After any run at most one audio element is bound or playing, and it
    is the one [audioRef] points to. *)
Theorem at_most_one_sink (events : list Event) (s : State) (a a' : nat)
    (el el' : HTMLAudioElement) :
  run init events = Some s →
  audios s !! a = Some el → alive el = true →
  audios s !! a' = Some el' → alive el' = true →
  a = a' ∧ audioRef s = Some a.
Proof.
  intros Hrun Hl Ha Hl' Ha'.
  assert (Hinv : sink_inv s) by (apply reachable_sink_inv; by exists events).
  pose proof (Hinv a el Hl Ha) as Hr.
  pose proof (Hinv a' el' Hl' Ha') as Hr'.
  split; [congruence | done].
Qed.

Lemma at_most_one_sink_witness :
  0 = 0 ∧ audioRef live_with_sink = Some 0.
Proof.
  apply (at_most_one_sink (go_live ++ [track_started 0 (remote_track 7) true]) live_with_sink 0 0
           {| srcObject := Some [{| kind := "audio"; trackId := 7 |}]; autoplay := true; paused := false |}
           {| srcObject := Some [{| kind := "audio"; trackId := 7 |}]; autoplay := true; paused := false |});
    reflexivity.
Defined.

(** ** Muting twice *)

Lemma toggleMute_exact (s : State) (c : nat) (call : DailyCall) :
  callRef s = Some c →
  calls s !! c = Some call →
  step s toggleMute_intent
  = Next (with_isMuted (localAudioEnabled call)
            (with_calls (alter (set_localAudioEnabled (negb (localAudioEnabled call))) c (calls s))
               (with_oplog (oplog s ++ [OpSetLocalAudio c (negb (localAudioEnabled call))]) s))).
Proof.
  intros Href Hcall. unfold_turn. cbn. rewrite Href. cbn. rewrite Hcall. cbn.
  destruct (localAudioEnabled call); reflexivity.
Qed.

(** X8. After any run with a session, two mute toggles in a row put the call
    object back exactly as it was, and after each of them [isMuted] says
    the opposite of the transport's flag, whatever it said before. *)
Theorem toggleMute_twice (events : list Event) (s : State) (c : nat) :
  run init events = Some s →
  callRef s = Some c →
  ∃ call s1 s2 call1,
    calls s !! c = Some call ∧
    step s toggleMute_intent = Next s1 ∧ step s1 toggleMute_intent = Next s2 ∧
    calls s1 !! c = Some call1 ∧ isMuted s1 = negb (localAudioEnabled call1) ∧
    calls s2 !! c = Some call ∧ isMuted s2 = negb (localAudioEnabled call) ∧
    oplog s2 = oplog s ++ [OpSetLocalAudio c (negb (localAudioEnabled call));
                           OpSetLocalAudio c (localAudioEnabled call)].
Proof.
  intros Hrun Href.
  assert (Hval : ref_valid s).
  { eapply run_ref_valid; [|done]. intros c'. done. }
  destruct (lookup_lt_is_Some_2 (calls s) c (Hval c Href)) as [call Hcall].
  pose proof (toggleMute_exact s c call Href Hcall) as Hstep1.
  set (s1 := with_isMuted _ _) in Hstep1.
  set (call1 := set_localAudioEnabled (negb (localAudioEnabled call)) call).
  assert (Hcall1 : calls s1 !! c = Some call1).
  { unfold s1. cbn. by rewrite list_lookup_alter_eq, Hcall. }
  assert (Href1 : callRef s1 = Some c) by done.
  pose proof (toggleMute_exact s1 c call1 Href1 Hcall1) as Hstep2.
  eexists call, s1, _, call1.
  split; [done|]. split; [done|]. split; [exact Hstep2|].
  split; [done|]. split; [unfold s1, call1; cbn; by rewrite negb_involutive|].
  cbn. rewrite !list_lookup_alter_eq, Hcall. cbn.
  rewrite !negb_involutive. destruct call as [flag ms d]; cbn.
  split; [done|]. split; [done|]. by rewrite <- app_assoc.
Qed.

Lemma toggleMute_twice_witness :
  ∃ call s1 s2 call1,
    calls live_mic_off_out_of_band !! 0 = Some call ∧
    step live_mic_off_out_of_band toggleMute_intent = Next s1 ∧
    step s1 toggleMute_intent = Next s2 ∧
    calls s1 !! 0 = Some call1 ∧ isMuted s1 = negb (localAudioEnabled call1) ∧
    calls s2 !! 0 = Some call ∧ isMuted s2 = negb (localAudioEnabled call) ∧
    oplog s2 = oplog live_mic_off_out_of_band ++
               [OpSetLocalAudio 0 (negb (localAudioEnabled call));
                OpSetLocalAudio 0 (localAudioEnabled call)].
Proof.
  apply (toggleMute_twice (go_live ++ [local_audio_changed 0 false])
           live_mic_off_out_of_band 0); reflexivity.
Defined.

(** ** Where call objects come from *)

Lemma step_calls_count (s s' : State) (e : Event) :
  step s e = Next s' →
  length (calls s') = length (calls s) ∨
  (is_FetchOk e = true ∧ length (calls s') = length (calls s) + 1).
Proof.
  intros Hstep.
  destruct e as [ | | |id|r|c|c|c|c|c event playAllowed|c data|c enabled|c|c].
  5: { revert Hstep. unfold_turn. cbn.
       destruct (pendingFetch s); [done|]. destruct r; cbn.
       - destruct (forallb destroyed (calls s)); cbn; intros [= <-]; cbn.
         + right. split; [done|]. rewrite length_alter, length_app. cbn. lia.
         + by left.
       - intros [= <-]. by left. }
  all: apply step_calls_frame in Hstep as [-> _]; by left.
Qed.

Lemma run_calls_count (events : list Event) (s s' : State) :
  run s events = Some s' →
  (length (calls s') ≤ length (calls s) + length (List.filter is_FetchOk events))%nat.
Proof.
  revert s. induction events as [|e rest IH]; intros s; cbn.
  - intros [= <-]. lia.
  - destruct (step s e) as [s1| |] eqn:Hstep; [|done..].
    intros Hrun. specialize (IH _ Hrun).
    destruct (step_calls_count _ _ _ Hstep) as [Hlen | [Hok Hlen]].
    + destruct (is_FetchOk e); cbn; lia.
    + rewrite Hok. cbn. lia.
Qed.

(** What a granted room does, by whether a call object is left that was
    not destroyed. *)
Lemma granted_room_step (s : State) (room_url token : string) :
  0 < pendingFetch s →
  ∃ s',
    step s (fetch_settled (FetchOk room_url token)) = Next s' ∧
    if forallb destroyed (calls s)
    then length (calls s') = length (calls s) + 1 ∧
         callRef s' = Some (length (calls s)) ∧
         call_in [ms_joining] (length (calls s)) s' = true ∧
         connectionState s' = connectionState s
    else calls s' = calls s ∧ callRef s' = callRef s ∧
         connectionState s' = ConnectionState.error.
Proof.
  intros Hp. unfold_turn. cbn.
  destruct (pendingFetch s) as [|n]; [lia|]. cbn.
  destruct (forallb destroyed (calls s)); cbn.
  - eexists. split; [reflexivity|]. cbn.
    rewrite length_alter, length_app. cbn. split; [done|]. split; [done|].
    split; [|done]. unfold call_in. cbn.
    rewrite alter_snoc, list_lookup_middle by done. done.
  - eexists. split; [reflexivity|]. done.
Qed.

(** X10. After any run there are at most as many call objects as
    provisioning requests that succeeded, and at most one of them is not
    destroyed.  A granted room makes one, references it and joins it when
    every call object made before is destroyed; when one is left that is
    not, it makes none and the connect ends in [error]. *)
Theorem one_call_per_granted_room (events : list Event) (s : State) :
  run init events = Some s →
  (length (calls s) ≤ length (List.filter is_FetchOk events))%nat ∧
  (∀ c c' call call',
     calls s !! c = Some call → calls s !! c' = Some call' →
     destroyed call = false → destroyed call' = false → c = c') ∧
  (∀ room_url token,
     0 < pendingFetch s →
     ∃ s',
       step s (fetch_settled (FetchOk room_url token)) = Next s' ∧
       if forallb destroyed (calls s)
       then length (calls s') = length (calls s) + 1 ∧
            callRef s' = Some (length (calls s)) ∧
            call_in [ms_joining] (length (calls s)) s' = true ∧
            connectionState s' = connectionState s
       else calls s' = calls s ∧ callRef s' = callRef s ∧
            connectionState s' = ConnectionState.error).
Proof.
  intros Hrun. split; [|split].
  - pose proof (run_calls_count events init s Hrun) as Hlen. cbn in Hlen. lia.
  - by destruct (run_init_fresh_inv events s Hrun) as [Hone _].
  - intros room_url token. apply granted_room_step.
Qed.

(** A call that failed and a retry, which failed; the call button is
    pressed again: two rooms were granted, one call object was made, and
    the next room granted makes none either. *)
Lemma one_call_per_granted_room_witness :
  (length (calls retrying_again) ≤ 2)%nat ∧
  (∀ c c' call call',
     calls retrying_again !! c = Some call → calls retrying_again !! c' = Some call' →
     destroyed call = false → destroyed call' = false → c = c') ∧
  (∀ room_url token,
     0 < pendingFetch retrying_again →
     ∃ s',
       step retrying_again (fetch_settled (FetchOk room_url token)) = Next s' ∧
       calls s' = calls retrying_again ∧ callRef s' = callRef retrying_again ∧
       connectionState s' = ConnectionState.error).
Proof.
  apply (one_call_per_granted_room (retry_after_error ++ [connect_intent]) retrying_again).
  reflexivity.
Defined.

(** ** Connecting and connected are never empty promises *)

Lemma call_in_alter_flag (states : list MeetingState) (c c' : nat) (b : bool)
    (l : list DailyCall) (s : State) :
  calls s = alter (set_localAudioEnabled b) c' l →
  call_in states c s = match l !! c with
                       | Some call => negb (destroyed call) && bool_decide (meetingState call ∈ states)
                       | None => false
                       end.
Proof.
  intros Hcalls. unfold call_in. rewrite Hcalls, list_lookup_alter.
  case_decide; subst; destruct (l !! c); done.
Qed.

(** Turns that leave the meeting states, the connection state and the
    pending requests alone. *)
Lemma step_quiet (s s' : State) (e : Event) :
  step s e = Next s' →
  match e with
  | toggleMute_intent | selectCharacter_intent _ | track_started _ _ _
  | app_message _ _ | local_audio_changed _ _ =>
      connectionState s' = connectionState s ∧ pendingFetch s' = pendingFetch s ∧
      ∀ states c, call_in states c s' = call_in states c s
  | _ => True
  end.
Proof.
  destruct e as [ | | |id|r|c|c|c|c|c event playAllowed|c data|c enabled|c|c]; try done.
  - unfold_turn. cbn. destruct (callRef s) as [c|]; cbn.
    + destruct (calls s !! c) as [call|] eqn:Hcall; cbn; [|done].
      intros [= <-]. cbn. split; [done|]. split; [done|].
      intros states c'. by erewrite call_in_alter_flag.
    + by intros [= <-].
  - unfold_turn. cbn. repeat case_match; intros; by simplify_eq.
  - unfold step. cbn [occurs handler]. destruct (call_in _ c s); [|done].
    destruct (remote_audio event) as [t|] eqn:Hremote.
    + unfold on_track_started. rewrite Hremote. unfold_turn. cbn.
      destruct (audioRef s); cbn; destruct playAllowed; cbn; intros [= <-]; done.
    + unfold on_track_started. rewrite Hremote. by intros [= <-].
  - unfold_turn. cbn. destruct (call_in _ c s); [|done].
    destruct data; cbn; repeat case_match; intros; by simplify_eq.
  - unfold_turn. cbn. destruct (call_in _ c s); [|done].
    intros [= <-]. cbn. split; [done|]. split; [done|].
    intros states c'. by erewrite call_in_alter_flag.
Qed.

Lemma step_backed (s s' : State) (e : Event) :
  backed s → step s e = Next s' → backed s'.
Proof.
  intros [Hconnecting Hconnected] Hstep.
  destruct e as [ | | |id|r|c|c|c|c|c event playAllowed|c data|c enabled|c|c].
  - (* connect *)
    revert Hstep. unfold_turn. cbn.
    destruct (connectionState s) eqn:Hcs; cbn; intros [= <-]; split; cbn; try done.
    all: first [ intros _; left; cbn; lia
               | intros Hcs'; rewrite Hcs in Hcs'; first [done | auto] ].
  - (* hang-up is pressed *)
    revert Hstep. unfold_turn. cbn.
    destruct (audioRef s); cbn; destruct (callRef s); cbn; intros [= <-].
    all: unfold backed, in_flight, call_in in *; cbn; done.
  - apply step_quiet in Hstep as (Hcs & Hp & Hin).
    split; rewrite Hcs; unfold in_flight; rewrite ?Hp; setoid_rewrite Hin; done.
  - apply step_quiet in Hstep as (Hcs & Hp & Hin).
    split; rewrite Hcs; unfold in_flight; rewrite ?Hp; setoid_rewrite Hin; done.
  - (* the request settles *)
    revert Hstep. unfold_turn. cbn.
    destruct (pendingFetch s) as [|n]; [done|]. destruct r; cbn.
    + destruct (forallb destroyed (calls s)); cbn; [|intros [= <-]; split; cbn; done].
      intros [= <-]. unfold backed, in_flight, call_in. cbn.
      rewrite alter_snoc. cbn.
      split.
      * intros _. right. exists (length (calls s)).
        rewrite list_lookup_middle by done. done.
      * intros Hcs. destruct (Hconnected Hcs) as [c Hc]. exists c.
        unfold call_in in Hc. destruct (calls s !! c) as [call|] eqn:Hcall; [|done].
        rewrite lookup_app_l by (by eapply lookup_lt_Some). by rewrite Hcall.
    + intros [= <-]. split; cbn; done.
  - (* the join is rejected *)
    revert Hstep. unfold_turn. cbn. destruct (call_in _ c s); [|done].
    intros [= <-]. split; cbn; done.
  - (* joined *)
    revert Hstep. unfold_turn. cbn. destruct (call_in _ c s) eqn:Hin; [|done].
    intros [= <-]. split; cbn; [done|]. intros _. exists c.
    unfold call_in in *. cbn. rewrite list_lookup_alter_eq.
    destruct (calls s !! c) as [call|]; [|done]. cbn.
    apply andb_prop in Hin as [-> _]. done.
  - (* left *)
    revert Hstep. unfold_turn. cbn. destruct (call_in _ c s); [|done].
    intros [= <-]. split; cbn; done.
  - (* error *)
    revert Hstep. unfold_turn. cbn. destruct (call_in _ c s); [|done].
    intros [= <-]. split; cbn; done.
  - apply step_quiet in Hstep as (Hcs & Hp & Hin).
    split; rewrite Hcs; unfold in_flight; rewrite ?Hp; setoid_rewrite Hin; done.
  - apply step_quiet in Hstep as (Hcs & Hp & Hin).
    split; rewrite Hcs; unfold in_flight; rewrite ?Hp; setoid_rewrite Hin; done.
  - apply step_quiet in Hstep as (Hcs & Hp & Hin).
    split; rewrite Hcs; unfold in_flight; rewrite ?Hp; setoid_rewrite Hin; done.
  - (* the leave settles *)
    revert Hstep. unfold_turn. cbn.
    destruct (bool_decide _ && _); [|done]. cbn.
    destruct (callRef s); cbn; intros [= <-].
    all: unfold backed, in_flight, call_in in *; cbn; done.
  - (* the destroy settles *)
    revert Hstep. unfold_turn. cbn.
    destruct (bool_decide _); [|done]. intros [= <-]. split; cbn; done.
Qed.

Lemma run_backed (events : list Event) (s s' : State) :
  backed s → run s events = Some s' → backed s'.
Proof.
  revert s. induction events as [|e rest IH]; intros s Hb; cbn.
  - by intros [= <-].
  - destruct (step s e) as [s1| |] eqn:Hstep; [|done..].
    apply IH. by eapply step_backed.
Qed.

Lemma run_init_backed (events : list Event) (s : State) :
  run init events = Some s → backed s.
Proof. apply run_backed. split; done. Qed.

Lemma call_in_one (m : MeetingState) (c : nat) (s : State) :
  call_in [m] c s = true →
  ∃ call, calls s !! c = Some call ∧ meetingState call = m ∧ destroyed call = false.
Proof.
  unfold call_in. destruct (calls s !! c) as [call|]; [|done].
  intros [Hd Hm]%andb_prop. exists call.
  apply negb_true_iff in Hd. apply bool_decide_eq_true in Hm.
  apply list_elem_of_singleton in Hm. done.
Qed.

(** X11. After any run, [connecting] is never shown with nothing under way:
    either a provisioning request is still pending or some call object,
    not destroyed, is joining. *)
Theorem connecting_has_work_in_flight (events : list Event) (s : State) :
  run init events = Some s →
  connectionState s = ConnectionState.connecting →
  0 < pendingFetch s ∨
  ∃ c call, calls s !! c = Some call ∧ meetingState call = ms_joining ∧ destroyed call = false.
Proof.
  intros Hrun Hcs. destruct (run_init_backed events s Hrun) as [Hb _].
  destruct (Hb Hcs) as [Hp | [c Hc]]; [by left|].
  right. exists c. by apply call_in_one.
Qed.

Lemma connecting_has_work_in_flight_witness :
  0 < pendingFetch joining ∨
  ∃ c call, calls joining !! c = Some call ∧ meetingState call = ms_joining ∧
            destroyed call = false.
Proof.
  apply (connecting_has_work_in_flight (take 2 go_live) joining); reflexivity.
Defined.

(** X12. After any run, [connected] is never shown without a call object that
    the transport reports as joined and that has not been destroyed. *)
Theorem connected_has_joined_call (events : list Event) (s : State) :
  run init events = Some s →
  connectionState s = ConnectionState.connected →
  ∃ c call, calls s !! c = Some call ∧ meetingState call = ms_joined ∧ destroyed call = false.
Proof.
  intros Hrun Hcs. destruct (run_init_backed events s Hrun) as [_ Hb].
  destruct (Hb Hcs) as [c Hc]. exists c. by apply call_in_one.
Qed.

Lemma connected_has_joined_call_witness :
  ∃ c call, calls live_with_sink !! c = Some call ∧ meetingState call = ms_joined ∧
            destroyed call = false.
Proof.
  apply (connected_has_joined_call (go_live ++ [track_started 0 (remote_track 7) true])
           live_with_sink); reflexivity.
Defined.


(** ** The character that is asked for *)

Ltac fetch_in_log :=
  repeat match goal with
         | H : _ ∈ _ ++ _ |- _ => apply elem_of_app in H as [H|H]
         | H : _ ∈ [_] |- _ => apply list_elem_of_singleton in H
         | H : _ ∈ [] |- _ => by apply not_elem_of_nil in H
         end;
  first [ by left | by right; congruence | congruence | done ].

(** What one turn adds to the requests in the log and does to the
    selection. *)
Lemma step_fetch_log (s s' : State) (e : Event) :
  step s e = Next s' →
  (∀ ch, OpFetch ch ∈ oplog s' → OpFetch ch ∈ oplog s ∨ ch = selectedCharacter s) ∧
  match e with
  | selectCharacter_intent id => selectedCharacter s' = selectedCharacter s ∨ selectedCharacter s' = id
  | _ => selectedCharacter s' = selectedCharacter s
  end.
Proof.
  destruct e as [ | | |id|r|c|c|c|c|c event playAllowed|c data|c enabled|c|c].
  - unfold_turn. cbn. repeat case_match; intros; simplify_eq; cbn; (split; [|done]);
      intros ch Hin; fetch_in_log.
  - unfold_turn. cbn.
    destruct (audioRef s); cbn; destruct (callRef s); cbn; intros [= <-]; cbn;
      (split; [|done]); intros ch Hin; fetch_in_log.
  - unfold_turn. cbn. repeat case_match; intros; simplify_eq; cbn; (split; [|done]);
      intros ch Hin; fetch_in_log.
  - unfold_turn. cbn. repeat case_match; intros; simplify_eq; cbn;
      (split; [intros ch Hin; fetch_in_log | auto]).
  - unfold_turn. cbn. repeat case_match; intros; simplify_eq; cbn; (split; [|done]);
      intros ch Hin; fetch_in_log.
  - unfold_turn. cbn. repeat case_match; intros; simplify_eq; cbn; (split; [|done]);
      intros ch Hin; fetch_in_log.
  - unfold_turn. cbn. repeat case_match; intros; simplify_eq; cbn; (split; [|done]);
      intros ch Hin; fetch_in_log.
  - unfold_turn. cbn. repeat case_match; intros; simplify_eq; cbn; (split; [|done]);
      intros ch Hin; fetch_in_log.
  - unfold_turn. cbn. repeat case_match; intros; simplify_eq; cbn; (split; [|done]);
      intros ch Hin; fetch_in_log.
  - unfold step. cbn [occurs handler]. destruct (call_in _ c s); [|done].
    destruct (remote_audio event) as [t|] eqn:Hremote.
    + unfold on_track_started. rewrite Hremote. unfold_turn. cbn.
      destruct (audioRef s); cbn; destruct playAllowed; cbn; intros [= <-]; cbn;
        (split; [|done]); intros ch Hin; fetch_in_log.
    + unfold on_track_started. rewrite Hremote. intros [= <-]. split; [|done]. by left.
  - unfold_turn. cbn. destruct (call_in _ c s); [|done].
    destruct data; cbn; repeat case_match; intros; simplify_eq; cbn; (split; [|done]);
      intros ch Hin; fetch_in_log.
  - unfold_turn. cbn. repeat case_match; intros; simplify_eq; cbn; (split; [|done]);
      intros ch Hin; fetch_in_log.
  - unfold_turn. cbn. repeat case_match; intros; simplify_eq; cbn; (split; [|done]);
      intros ch Hin; fetch_in_log.
  - unfold_turn. cbn. repeat case_match; intros; simplify_eq; cbn; (split; [|done]);
      intros ch Hin; fetch_in_log.
Qed.

Lemma panel_not_clickable (s : State) :
  Forall (λ n, click n = None) (panel s).
Proof.
  unfold panel, jsx_when, jsx_and. rewrite !Forall_app.
  repeat split; repeat case_match; repeat constructor.
Qed.

Lemma controls_select_nothing (s : State) :
  Forall (λ n, ∀ id, click n ≠ Some (selectCharacter_intent id)) (controls s).
Proof.
  unfold controls, jsx_when. rewrite !Forall_app.
  repeat split; repeat case_match; repeat constructor; done.
Qed.

(** Only a character pill selects a character, and it selects its own. *)
Lemma click_selects_from_catalog (s : State) (n : Node) (id : string) :
  n ∈ App s → click n = Some (selectCharacter_intent id) →
  id ∈ map Character.id CHARACTERS.
Proof.
  unfold App. intros [Hn | [Hn | Hn]%elem_of_app]%elem_of_app Hclick.
  - unfold character_buttons in Hn.
    apply list_elem_of_fmap in Hn as (char & -> & Hchar).
    cbn in Hclick. case_match; [done|]. injection Hclick as <-.
    apply list_elem_of_fmap. by exists char.
  - pose proof (panel_not_clickable s) as Hall.
    rewrite Forall_forall in Hall. rewrite (Hall n Hn) in Hclick. done.
  - pose proof (controls_select_nothing s) as Hall.
    rewrite Forall_forall in Hall. by destruct (Hall n Hn id).
Qed.

Lemma ui_run_catalog (events : list Event) (s s' : State) :
  selectedCharacter s ∈ map Character.id CHARACTERS →
  (∀ ch, OpFetch ch ∈ oplog s → ch ∈ map Character.id CHARACTERS) →
  ui_driven s events → run s events = Some s' →
  selectedCharacter s' ∈ map Character.id CHARACTERS ∧
  ∀ ch, OpFetch ch ∈ oplog s' → ch ∈ map Character.id CHARACTERS.
Proof.
  revert s. induction events as [|e rest IH]; intros s Hsel Hlog; cbn.
  - intros _ [= <-]. done.
  - intros [Hclick Hui]. destruct (step s e) as [s1| |] eqn:Hstep; [|done..].
    destruct (step_fetch_log s s1 e Hstep) as [Hlog1 Hsel1].
    apply IH; [| |done].
    + destruct e as [ | | |id|r|c|c|c|c|c event playAllowed|c data|c enabled|c|c];
        try (by rewrite Hsel1).
      destruct Hsel1 as [-> | ->]; [done|].
      destruct (Hclick eq_refl) as (n & Hn & Hc).
      exact (click_selects_from_catalog s n id Hn Hc).
    + intros ch Hin. destruct (Hlog1 ch Hin) as [Hold | ->]; auto.
Qed.

(** X14. In a run where every intent is a click on what is on screen, the
    selected character is always one of the catalog, and so is the
    character named in every provisioning request sent. *)
Theorem requests_name_catalog_characters (events : list Event) (s : State) :
  ui_driven init events →
  run init events = Some s →
  selectedCharacter s ∈ map Character.id CHARACTERS ∧
  ∀ ch, OpFetch ch ∈ oplog s → ch ∈ map Character.id CHARACTERS.
Proof.
  intros Hui Hrun. eapply (ui_run_catalog events init s); try done.
  - cbn. constructor.
  - cbn. intros ch Hin. by apply not_elem_of_nil in Hin.
Qed.

Lemma requests_name_catalog_characters_witness :
  selectedCharacter lola_requested ∈ map Character.id CHARACTERS ∧
  ∀ ch, OpFetch ch ∈ oplog lola_requested → ch ∈ map Character.id CHARACTERS.
Proof.
  apply (requests_name_catalog_characters [selectCharacter_intent "lola"; connect_intent]
           lola_requested); [|reflexivity].
  assert (Hs : step init (selectCharacter_intent "lola")
               = Next (with_selectedCharacter "lola" init)) by reflexivity.
  assert (Hc : step (with_selectedCharacter "lola" init) connect_intent
               = Next lola_requested) by reflexivity.
  split.
  - intros _.
    exists (CharacterButton
              {| Character.id := "lola"; Character.name := "Lola Bunny";
                 Character.color := "#A0A0A0";
                 Character.avatar := "https://cambai-not-ai.conbersa.ai/lola-bunny.png" |}
              false false).
    split; [|reflexivity]. on_screen.
  - rewrite Hs. split.
    + intros _. exists call_button. split; [|reflexivity]. on_screen.
    + rewrite Hc. exact I.
Defined.


(** ** What is on screen and what a click does *)

Lemma panel_and_pills_do_not_call (s : State) :
  Forall (λ n, click n ≠ Some connect_intent ∧ click n ≠ Some disconnect_intent ∧
               click n ≠ Some toggleMute_intent)
    (character_buttons s ++ panel s).
Proof.
  rewrite Forall_app. split.
  - unfold character_buttons. rewrite Forall_fmap. apply Forall_forall.
    intros char _. cbn. case_match; done.
  - eapply Forall_impl; [apply panel_not_clickable|]. cbn. intros n ->. done.
Qed.

Lemma controls_by_state (s : State) :
  Forall (λ n,
            (click n = Some connect_intent →
             connectionState s = ConnectionState.idle ∨
             connectionState s = ConnectionState.error) ∧
            (click n = Some disconnect_intent →
             connectionState s = ConnectionState.connecting ∨
             connectionState s = ConnectionState.connected) ∧
            (click n = Some toggleMute_intent →
             connectionState s = ConnectionState.connected))
    (controls s).
Proof.
  unfold controls, jsx_when. rewrite !Forall_app.
  destruct (connectionState s); cbn; repeat split; repeat constructor; cbn; auto; done.
Qed.

(** X15. Whenever the call button is on screen, pressing it does start a
    connection: the connect guard lets it through, the state becomes
    [connecting] and one provisioning request for the selected character is
    sent. *)
Theorem call_button_starts_provisioning (s : State) (n : Node) :
  n ∈ App s →
  click n = Some connect_intent →
  ∃ s',
    step s connect_intent = Next s' ∧
    connectionState s' = ConnectionState.connecting ∧
    pendingFetch s' = S (pendingFetch s) ∧
    oplog s' = oplog s ++ [OpFetch (selectedCharacter s)].
Proof.
  unfold App. rewrite app_assoc. intros [Hn | Hn]%elem_of_app Hclick.
  - pose proof (panel_and_pills_do_not_call s) as Hall.
    rewrite Forall_forall in Hall.
    by destruct (Hall n Hn) as [? _].
  - pose proof (controls_by_state s) as Hall.
    rewrite Forall_forall in Hall.
    destruct (Hall n Hn) as (Hcs & _ & _).
    unfold_turn. cbn.
    destruct (Hcs Hclick) as [-> | ->]; cbn; eexists; (split; [reflexivity|]); done.
Qed.

Lemma call_button_starts_provisioning_witness :
  ∃ s',
    step init connect_intent = Next s' ∧
    connectionState s' = ConnectionState.connecting ∧
    pendingFetch s' = S (pendingFetch init) ∧
    oplog s' = oplog init ++ [OpFetch (selectedCharacter init)].
Proof.
  apply (call_button_starts_provisioning init call_button); [|reflexivity].
  on_screen.
Defined.

Lemma control_click (s : State) (n : Node) (e : Event) :
  e = connect_intent ∨ e = disconnect_intent ∨ e = toggleMute_intent →
  n ∈ App s → click n = Some e → n ∈ controls s.
Proof.
  intros He. unfold App. rewrite app_assoc. intros [Hn | Hn]%elem_of_app Hclick; [|done].
  pose proof (panel_and_pills_do_not_call s) as Hall.
  rewrite Forall_forall in Hall. destruct (Hall n Hn) as (? & ? & ?).
  destruct He as [-> | [-> | ->]]; done.
Qed.

Lemma controls_on_screen (s : State) (n : Node) : n ∈ controls s → n ∈ App s.
Proof. intros Hn. unfold App. rewrite !elem_of_app. auto. Qed.

(** X16. What the controls offer is decided by the connection state alone: the
    call button can be pressed exactly in [idle] and [error], the hang-up
    button exactly in [connecting] and [connected], the mute toggle exactly
    in [connected]. *)
Theorem controls_offered (s : State) :
  ((∃ n, n ∈ App s ∧ click n = Some connect_intent) ↔
   connectionState s = ConnectionState.idle ∨ connectionState s = ConnectionState.error) ∧
  ((∃ n, n ∈ App s ∧ click n = Some disconnect_intent) ↔
   connectionState s = ConnectionState.connecting ∨
   connectionState s = ConnectionState.connected) ∧
  ((∃ n, n ∈ App s ∧ click n = Some toggleMute_intent) ↔
   connectionState s = ConnectionState.connected).
Proof.
  pose proof (controls_by_state s) as Hall. rewrite Forall_forall in Hall.
  repeat split.
  - intros (n & Hn & Hclick).
    apply (control_click s n connect_intent) in Hn; [|by auto|done]. by apply (Hall n Hn).
  - intros Hcs. exists call_button. split; [|done].
    apply controls_on_screen. unfold controls, jsx_when.
    destruct Hcs as [-> | ->]; cbn; apply list_elem_of_In; cbn;
      repeat first [ left; reflexivity | right ].
  - intros (n & Hn & Hclick).
    apply (control_click s n disconnect_intent) in Hn; [|by auto|done]. by apply (Hall n Hn).
  - intros Hcs.
    exists (ControlButton (Some disconnect_intent) false "bg-red-500 hover:bg-red-600" PhoneOff).
    split; [|done].
    apply controls_on_screen. unfold controls, jsx_when.
    destruct Hcs as [-> | ->]; cbn; apply list_elem_of_In; cbn;
      repeat first [ left; reflexivity | right ].
  - intros (n & Hn & Hclick).
    apply (control_click s n toggleMute_intent) in Hn; [|by auto|done]. by apply (Hall n Hn).
  - intros Hcs. eexists. split.
    + apply controls_on_screen. unfold controls, jsx_when.
      rewrite Hcs. cbn. apply list_elem_of_In. cbn. left. reflexivity.
    + reflexivity.
Qed.

(** X17. Whenever a character pill can be clicked, the click takes effect: the
    handler's own guard lets it through and the selection becomes that
    pill's character, nothing else changing. *)
Theorem pill_click_selects (s : State) (n : Node) (id : string) :
  n ∈ App s →
  click n = Some (selectCharacter_intent id) →
  step s (selectCharacter_intent id) = Next (with_selectedCharacter id s).
Proof.
  unfold App. intros [Hn | [Hn | Hn]%elem_of_app]%elem_of_app Hclick.
  - unfold character_buttons in Hn.
    apply list_elem_of_fmap in Hn as (char & -> & Hchar).
    cbn in Hclick.
    destruct (bool_decide _ || bool_decide _) eqn:Hdis; [done|].
    injection Hclick as <-.
    unfold_turn. cbn. rewrite Hdis. reflexivity.
  - pose proof (panel_not_clickable s) as Hall.
    rewrite Forall_forall in Hall. rewrite (Hall n Hn) in Hclick. done.
  - pose proof (controls_select_nothing s) as Hall.
    rewrite Forall_forall in Hall. by destruct (Hall n Hn id).
Qed.

Lemma pill_click_selects_witness :
  step init (selectCharacter_intent "daffy") = Next (with_selectedCharacter "daffy" init).
Proof.
  apply (pill_click_selects init
           (CharacterButton
              {| Character.id := "daffy"; Character.name := "Daffy Duck";
                 Character.color := "#808080";
                 Character.avatar := "https://cambai-not-ai.conbersa.ai/daffy-duck.png" |}
              false false) "daffy"); [|reflexivity].
  on_screen.
Defined.

(** ** The status display *)







(** While the agent speaks and no transcript has come yet, a connected
    call shows an empty status display. *)
Example panel_blank_while_speaking :
  (panel <$> run init (go_live ++ [app_message 0 (msg_status "tts")])) = Some [].
Proof. vm_compute. reflexivity. Qed.

(** A transcript message whose [text] is an object is stored, and the
    next render throws on it. *)
Example object_text_unmounts :
  ((λ s, (transcript s, draw s)) <$>
     run init (go_live ++
               [app_message 0 (JObj [("type", JStr "transcript"); ("text", JObj [])])]))
  = Some (JObj [], None).
Proof. vm_compute. reflexivity. Qed.

(** ** What only a disconnect, the unmount and a toggle do *)

(** What a turn added to the log, and whether a [leave()] or a
    [destroy()] is in it. *)
Ltac new_calls :=
  cbn; rewrite <- ?app_assoc;
  eexists; split; [first [reflexivity | symmetry; apply app_nil_r]|];
  split; intros Hin; apply list_elem_of_In in Hin; cbn in Hin;
  repeat match goal with H : _ ∨ _ |- _ => destruct H end;
  simplify_eq; try done; eauto.

(** X5. [leave()] is called by the click on hang-up and by the unmount
    cleanup, [destroy()] by [disconnect] once its [leave()] has settled
    and by the unmount cleanup, each time on the call object the session
    reference points to; no other turn calls either: not the callbacks of
    the transport, ['left-meeting'] and ['error'] included, not the
    settling of a request or of a [destroy()], not the other intents. *)
Theorem only_disconnect_tears_down (s s' : State) (t : Turn) (c : nat) :
  perform s t = Next s' →
  ∃ new,
    oplog s' = oplog s ++ new ∧
    (OpLeave c ∈ new →
     (t = during disconnect_intent ∨ t = unmount) ∧ callRef s = Some c) ∧
    (OpDestroy c ∈ new →
     ((∃ c', t = during (leave_settled c')) ∨ t = unmount) ∧ callRef s = Some c).
Proof.
  destruct t as [e|]; cbn [perform].
  - destruct e as [ | | |id|r|c0|c0|c0|c0|c0 event playAllowed|c0 data|c0 enabled|c0|c0].
    + unfold_turn. cbn. repeat case_match; intros; simplify_eq; new_calls.
    + unfold_turn. cbn.
      destruct (audioRef s); cbn; destruct (callRef s) eqn:Href; cbn; intros [= <-]; new_calls.
    + unfold_turn. cbn. repeat case_match; intros; simplify_eq; new_calls.
    + unfold_turn. cbn. repeat case_match; intros; simplify_eq; new_calls.
    + unfold_turn. cbn. repeat case_match; intros; simplify_eq; new_calls.
    + unfold_turn. cbn. repeat case_match; intros; simplify_eq; new_calls.
    + unfold_turn. cbn. repeat case_match; intros; simplify_eq; new_calls.
    + unfold_turn. cbn. repeat case_match; intros; simplify_eq; new_calls.
    + unfold_turn. cbn. repeat case_match; intros; simplify_eq; new_calls.
    + unfold step. cbn [occurs handler]. destruct (call_in _ c0 s); [|done].
      destruct (remote_audio event) as [t|] eqn:Hremote.
      * unfold on_track_started. rewrite Hremote. unfold_turn. cbn.
        destruct (audioRef s); cbn; destruct playAllowed; cbn; intros [= <-]; new_calls.
      * unfold on_track_started. rewrite Hremote. intros [= <-]. new_calls.
    + unfold_turn. cbn. destruct (call_in _ c0 s); [|done].
      destruct data; cbn; repeat case_match; intros; simplify_eq; new_calls.
    + unfold_turn. cbn. repeat case_match; intros; simplify_eq; new_calls.
    + unfold_turn. cbn. destruct (bool_decide _ && _); [|done]. cbn.
      destruct (callRef s) eqn:Href; cbn; intros [= <-]; new_calls.
    + unfold_turn. cbn. repeat case_match; intros; simplify_eq; new_calls.
  - unfold cleanup. unfold_turn. cbn.
    destruct (audioRef s); cbn; destruct (callRef s) eqn:Href; cbn; intros [= <-]; new_calls.
Qed.

Lemma only_disconnect_tears_down_witness :
  ∃ s',
    perform live_with_sink unmount = Next s' ∧
    ∃ new,
      oplog s' = oplog live_with_sink ++ new ∧
      (OpLeave 0 ∈ new →
       (unmount = during disconnect_intent ∨ unmount = unmount) ∧
       callRef live_with_sink = Some 0) ∧
      (OpDestroy 0 ∈ new →
       ((∃ c', unmount = during (leave_settled c')) ∨ unmount = unmount) ∧
       callRef live_with_sink = Some 0).
Proof.
  eexists. split; [reflexivity|].
  apply (only_disconnect_tears_down live_with_sink _ unmount 0). reflexivity.
Defined.

(** X9. [isMuted] is written by the mute toggle and by nothing else: every
    other turn, a disconnect and a new connection included, leaves it as it
    was. *)
Theorem only_toggle_sets_isMuted (s s' : State) (e : Event) :
  e ≠ toggleMute_intent →
  step s e = Next s' →
  isMuted s' = isMuted s.
Proof.
  intros Hne.
  destruct e as [ | | |id|r|c0|c0|c0|c0|c0 event playAllowed|c0 data|c0 enabled|c0|c0];
    [| |done|..].
  - unfold_turn. cbn. repeat case_match; intros; by simplify_eq.
  - unfold_turn. cbn.
    destruct (audioRef s); cbn; destruct (callRef s); cbn; intros [= <-]; done.
  - unfold_turn. cbn. repeat case_match; intros; by simplify_eq.
  - unfold_turn. cbn. repeat case_match; intros; by simplify_eq.
  - unfold_turn. cbn. repeat case_match; intros; by simplify_eq.
  - unfold_turn. cbn. repeat case_match; intros; by simplify_eq.
  - unfold_turn. cbn. repeat case_match; intros; by simplify_eq.
  - unfold_turn. cbn. repeat case_match; intros; by simplify_eq.
  - unfold step. cbn [occurs handler]. destruct (call_in _ c0 s); [|done].
    destruct (remote_audio event) as [t|] eqn:Hremote.
    + unfold on_track_started. rewrite Hremote. unfold_turn. cbn.
      destruct (audioRef s); cbn; destruct playAllowed; cbn; intros [= <-]; done.
    + unfold on_track_started. rewrite Hremote. by intros [= <-].
  - unfold_turn. cbn. destruct (call_in _ c0 s); [|done].
    destruct data; cbn; repeat case_match; intros; by simplify_eq.
  - unfold_turn. cbn. repeat case_match; intros; by simplify_eq.
  - unfold_turn. cbn. repeat case_match; intros; by simplify_eq.
  - unfold_turn. cbn. repeat case_match; intros; by simplify_eq.
Qed.

Lemma only_toggle_sets_isMuted_witness :
  ∃ s',
    step live_with_sink disconnect_intent = Next s' ∧
    isMuted s' = isMuted live_with_sink.
Proof.
  eexists. split; [reflexivity|].
  apply (only_toggle_sets_isMuted live_with_sink _ disconnect_intent);
    [discriminate | reflexivity].
Defined.

(** Muting, hanging up and calling again: the new call object starts with
    its microphone enabled while [isMuted] still says [true]. *)
Example isMuted_survives_the_call :
  ((λ s, (isMuted s, localAudioEnabled <$> calls s !! 1)) <$>
     run init (go_live ++
               [toggleMute_intent;
                disconnect_intent; left_meeting 0; leave_settled 0; destroy_settled 0;
                connect_intent; fetch_settled (FetchOk "wss://y" "t2"); joined_meeting 1]))
  = Some (true, Some true).
Proof. vm_compute. reflexivity. Qed.

(** ** Messages delivered twice *)

Lemma on_app_message_again (data : jsval) (s : State) :
  ∃ s1, on_app_message data s = Ok tt s1 ∧ on_app_message data s1 = Ok tt s1 ∧
        calls s1 = calls s.
Proof.
  unfold on_app_message.
  destruct data as [| |b|n|str|items|fields]; cbn; try (by eexists).
  - destruct b; by eexists.
  - destruct (n =? 0)%Z; by eexists.
  - destruct (String.eqb str ""); by eexists.
  - unfold_turn. cbn.
    destruct (assoc "type" fields) as [ty|]; [|by eexists].
    destruct ty as [| |b|n|ty|items'|fields']; cbn; try (by eexists).
    destruct (String.eqb_spec ty "status") as [-> | Hstatus]; cbn; [by eexists|].
    destruct (String.eqb ty "transcript"); [|by eexists].
    destruct (truthy (default JUndefined (assoc "text" fields))); by eexists.
Qed.

(** X13. An application message that is delivered a second time right
    after the first changes nothing more: handling any payload is
    idempotent. *)
Theorem app_message_twice (s : State) (c : nat) (data : jsval) :
  call_in [ms_joined] c s = true →
  ∃ s1,
    step s (app_message c data) = Next s1 ∧
    step s1 (app_message c data) = Next s1.
Proof.
  intros Hin.
  destruct (on_app_message_again data s) as (s1 & H1 & H2 & Hcalls).
  exists s1. unfold step. cbn [occurs handler].
  assert (Hin1 : call_in [ms_joined] c s1 = true) by (unfold call_in in *; by rewrite Hcalls).
  by rewrite Hin, Hin1, H1, H2.
Qed.

Lemma app_message_twice_witness :
  ∃ s1,
    step live_with_sink (app_message 0 (msg_transcript "hello" "user")) = Next s1 ∧
    step s1 (app_message 0 (msg_transcript "hello" "user")) = Next s1.
Proof.
  apply (app_message_twice live_with_sink 0 (msg_transcript "hello" "user")). reflexivity.
Defined.
